(** * Shallow embedding of the react-slider drag-to-value mapper and its shared store

    Sources: [contexts/SliderContext.jsx] (the store, [SliderProvider]) and the
    quantized [components/Slider.jsx] ([initialize], [startDrag], [drag], [drop]).

    JavaScript numbers are modelled as exact rationals extended with [NaN] and
    the two infinities; rounding of IEEE doubles and the sign of zero are not
    modelled.  The DOM listener lists of [document.body] are kept explicitly, so
    that a second [mousedown] really registers a second [drag] closure. *)

From Stdlib Require Import QArith Qfield Qround Qminmax Lqa List Bool ZArith Lia Sorted.
Import ListNotations.

Open Scope Q_scope.

(** ** JavaScript numbers *)

Inductive number : Type :=
| Fin (q : Q)
| NaN
| PosInf
| NegInf.

(** [a + b] *)
Definition js_add (a b : number) : number :=
  match a, b with
  | NaN, _ | _, NaN => NaN
  | Fin x, Fin y => Fin (x + y)
  | PosInf, NegInf | NegInf, PosInf => NaN
  | PosInf, _ | _, PosInf => PosInf
  | NegInf, _ | _, NegInf => NegInf
  end.

(** unary [- a] *)
Definition js_neg (a : number) : number :=
  match a with
  | Fin x => Fin (- x)
  | NaN => NaN
  | PosInf => NegInf
  | NegInf => PosInf
  end.

(** [a - b] *)
Definition js_sub (a b : number) : number := js_add a (js_neg b).

(** The infinity of the sign of a non-zero rational (zero gives [NaN]). *)
Definition inf_of_sign (x : Q) (flip : bool) : number :=
  match Qcompare x 0 with
  | Eq => NaN
  | Gt => if flip then NegInf else PosInf
  | Lt => if flip then PosInf else NegInf
  end.

(** [a * b] *)
Definition js_mul (a b : number) : number :=
  match a, b with
  | NaN, _ | _, NaN => NaN
  | Fin x, Fin y => Fin (x * y)
  | Fin x, PosInf | PosInf, Fin x => inf_of_sign x false
  | Fin x, NegInf | NegInf, Fin x => inf_of_sign x true
  | PosInf, PosInf | NegInf, NegInf => PosInf
  | PosInf, NegInf | NegInf, PosInf => NegInf
  end.

(** [a / b]; a zero divisor is taken as [+0]. *)
Definition js_div (a b : number) : number :=
  match a, b with
  | NaN, _ | _, NaN => NaN
  | Fin x, Fin y =>
      match Qcompare y 0 with
      | Eq => inf_of_sign x false
      | _ => Fin (x / y)
      end
  | Fin _, PosInf | Fin _, NegInf => Fin 0
  | PosInf, Fin y => match Qcompare y 0 with Lt => NegInf | _ => PosInf end
  | NegInf, Fin y => match Qcompare y 0 with Lt => PosInf | _ => NegInf end
  | PosInf, PosInf | PosInf, NegInf | NegInf, PosInf | NegInf, NegInf => NaN
  end.

(** [a < b] *)
Definition js_lt (a b : number) : bool :=
  match a, b with
  | Fin x, Fin y => negb (Qle_bool y x)
  | NegInf, Fin _ | NegInf, PosInf | Fin _, PosInf => true
  | _, _ => false
  end.

Definition is_nan (a : number) : bool :=
  match a with NaN => true | _ => false end.

(** [Math.min(a, b)] *)
Definition Math_min (a b : number) : number :=
  if is_nan a || is_nan b then NaN else if js_lt b a then b else a.

(** [Math.max(a, b)] *)
Definition Math_max (a b : number) : number :=
  if is_nan a || is_nan b then NaN else if js_lt a b then b else a.

(** [Math.round(a)]: the nearest integer, halves rounded up. *)
Definition Math_round (a : number) : number :=
  match a with
  | Fin x => Fin (inject_Z (Qfloor (x + (1 # 2))))
  | other => other
  end.

(** [a === b] *)
Definition js_seq (a b : number) : bool :=
  match a, b with
  | Fin x, Fin y => Qeq_bool x y
  | PosInf, PosInf | NegInf, NegInf => true
  | _, _ => false
  end.

(** [a !== b] *)
Definition js_sneq (a b : number) : bool := negb (js_seq a b).

(** ** The shared value store ([SliderContext.jsx]) *)

Record store : Type := mkStore { maxValue : number; value : number }.

(** [useState] setter of [value]; the store has no setter for [maxValue]. *)
Definition setValue (v : number) (s : store) : store :=
  {| maxValue := maxValue s; value := v |}.

(** The object handed to [SliderContext.Provider]: [{ maxValue, value, setValue }]. *)
Record slider_context : Type := mkContext {
  ctx_maxValue : number;
  ctx_value : number;
  ctx_setValue : number -> store -> store }.

Definition provide (s : store) : slider_context :=
  {| ctx_maxValue := maxValue s; ctx_value := value s; ctx_setValue := setValue |}.

(** [useState(100)] and [useState(50)] in [SliderProvider]. *)
Definition SliderProvider : store := {| maxValue := Fin 100; value := Fin 50 |}.

(** ** The drag-to-value mapper ([Slider.jsx]) *)

(** [dragData.current]; a missing field reads as [undefined], i.e. [NaN] in arithmetic. *)
Record drag_data : Type := mkDragData { dd_left : number; dd_max : number; dd_offset : number }.

(** The state setters called by the component. *)
Inductive effect : Type :=
| SetValue (v : number)
| SetLeft (l : number).

(** [drag(event)], the [mousemove] listener; [maxValue] is the one captured
    from the context when the closure was created. *)
Definition drag (maxValue : number) (dd : drag_data) (pageX : number)
  : drag_data * list effect :=
  let next := Math_max (Fin 0) (Math_min (js_add pageX (dd_offset dd)) (dd_max dd)) in
  if js_sneq (dd_left dd) next then
    let value := Math_round (js_mul (js_div next (dd_max dd)) maxValue) in
    let next := js_div (js_mul (dd_max dd) value) maxValue in
    ({| dd_left := next; dd_max := dd_max dd; dd_offset := dd_offset dd |},
     [SetValue value; SetLeft next])
  else (dd, []).

(** A registered [drag] closure: its identity and the [maxValue] it captured. *)
Record listener : Type := mkListener { l_id : nat; l_maxValue : number }.

(** The whole page: the store, the Slider's [left] state and [dragData] ref,
    the listeners on [document.body], and the log of setter calls. *)
Record world : Type := mkWorld {
  w_store : store;
  w_left : number;
  w_drag : drag_data;
  w_moves : list listener;   (* "mousemove" listeners: drag closures *)
  w_ups : list nat;          (* "mouseup" once-listeners: drop closures *)
  w_fresh : nat;
  w_log : list effect }.

Definition apply_effect (w : world) (e : effect) : world :=
  match e with
  | SetValue v =>
      {| w_store := setValue v (w_store w); w_left := w_left w; w_drag := w_drag w;
         w_moves := w_moves w; w_ups := w_ups w; w_fresh := w_fresh w;
         w_log := w_log w ++ [e] |}
  | SetLeft l =>
      {| w_store := w_store w; w_left := l; w_drag := w_drag w;
         w_moves := w_moves w; w_ups := w_ups w; w_fresh := w_fresh w;
         w_log := w_log w ++ [e] |}
  end.

Definition set_drag (w : world) (dd : drag_data) : world :=
  {| w_store := w_store w; w_left := w_left w; w_drag := dd;
     w_moves := w_moves w; w_ups := w_ups w; w_fresh := w_fresh w; w_log := w_log w |}.

(** One [drag] closure run on the current world. *)
Definition run_drag (l : listener) (pageX : number) (w : world) : world :=
  let '(dd, effs) := drag (l_maxValue l) (w_drag w) pageX in
  fold_left apply_effect effs (set_drag w dd).

(** [startDrag(event)]: sets the shared offset, then registers a fresh [drag]
    closure for "mousemove" and a fresh once-[drop] closure for "mouseup". *)
Definition startDrag (pageX : number) (w : world) : world :=
  let dd := w_drag w in
  {| w_store := w_store w; w_left := w_left w;
     w_drag := {| dd_left := dd_left dd; dd_max := dd_max dd;
                  dd_offset := js_sub (dd_left dd) pageX |};
     w_moves := w_moves w ++ [{| l_id := w_fresh w; l_maxValue := maxValue (w_store w) |}];
     w_ups := w_ups w ++ [w_fresh w];
     w_fresh := S (w_fresh w); w_log := w_log w |}.

(** [drop()] of the closure [id]: removes its own [drag] closure. *)
Definition drop (id : nat) (ls : list listener) : list listener :=
  filter (fun l => negb (Nat.eqb (l_id l) id)) ls.

Inductive event : Type :=
| MouseDown (pageX : number)
| MouseMove (pageX : number)
| MouseUp.

(** Dispatch of one DOM event.  A "mousemove" runs every registered [drag]
    closure in registration order; a "mouseup" runs (and, being [once],
    unregisters) every [drop] closure. *)
Definition dispatch (w : world) (ev : event) : world :=
  match ev with
  | MouseDown x => startDrag x w
  | MouseMove x => fold_left (fun w l => run_drag l x w) (w_moves w) w
  | MouseUp =>
      {| w_store := w_store w; w_left := w_left w; w_drag := w_drag w;
         w_moves := fold_left (fun ls id => drop id ls) (w_ups w) (w_moves w);
         w_ups := []; w_fresh := w_fresh w; w_log := w_log w |}
  end.

Definition run (w : world) (evs : list event) : world := fold_left dispatch evs w.

(** [initialize()]: measures the track ([clientWidth]) and the thumb
    ([getBoundingClientRect().width]) and replaces [dragData.current]. *)
Definition initialize (sliderWidth width : number) (s : store) : drag_data * number :=
  let max := js_sub sliderWidth width in
  let left := js_div (js_mul max (value s)) (maxValue s) in
  ({| dd_left := left; dd_max := max; dd_offset := NaN |}, left).

(** The page after the first render and the [useEffect(initialize, [])]. *)
Definition mount (sliderWidth width : number) : world :=
  let '(dd, left0) := initialize sliderWidth width SliderProvider in
  {| w_store := SliderProvider; w_left := left0; w_drag := dd;
     w_moves := []; w_ups := []; w_fresh := 0; w_log := [SetLeft left0] |}.

(** Reverse mapping of a pixel offset to a value, as in [drag]. *)
Definition offset_to_value (left max maxValue : number) : number :=
  Math_round (js_mul (js_div left max) maxValue).

(** Setter calls of the log that write the store. *)
Definition store_writes (log : list effect) : list number :=
  flat_map (fun e => match e with SetValue v => [v] | SetLeft _ => [] end) log.

(** ** Auxiliary notions for the statements *)

(** The value of [Math.max(0, Math.min(c, m))] on finite numbers. *)
Definition clampQ (c m : Q) : Q :=
  let x := if Qle_bool c m then c else m in
  if Qle_bool x 0 then 0 else x.

(** A JavaScript number that is finite and equal to [q]. *)
Definition fin_eq (a : number) (q : Q) : Prop :=
  match a with Fin x => x == q | _ => False end.

Definition num_le (a b : number) : Prop :=
  match a, b with Fin x, Fin y => x <= y | _, _ => False end.

(** Events as the browser delivers them: finite page coordinates. *)
Definition event_ok (ev : event) : Prop :=
  match ev with
  | MouseDown (Fin _) | MouseMove (Fin _) | MouseUp => True
  | _ => False
  end.

Definition moves (xs : list Q) : list event := map (fun x => MouseMove (Fin x)) xs.

(** The value written by a [drag] closure on a finite pointer coordinate. *)
Definition written_value (M m o x : Q) : Q :=
  inject_Z (Qfloor (clampQ (x + o) m / m * M + (1 # 2))).

(** The facts that hold on every page reachable from [mount] with finite
    events, for a slider whose drag geometry is [m]. *)
Record Reach (m : Q) (w : world) : Prop := {
  r_max : maxValue (w_store w) = Fin 100;
  r_left : exists l, dd_left (w_drag w) = Fin l /\ w_left w = Fin l;
  r_geom : dd_max (w_drag w) = Fin m;
  r_offset : w_moves w = [] \/ exists o, dd_offset (w_drag w) = Fin o;
  r_closures : Forall (fun L => l_maxValue L = Fin 100) (w_moves w);
  r_ids : forall L, In L (w_moves w) -> In (l_id L) (w_ups w) }.

(** A finite number in [[0, 100]]. *)
Definition in_range (a : number) : Prop :=
  exists q, a = Fin q /\ 0 <= q /\ q <= 100.

(** The thumb offset agrees with the store: [value] is an integer [z] in
    [[0, 100]] and [left = (maxTravel * z) / 100]. *)
Definition on_grid (m : Q) (w : world) : Prop :=
  exists (z : Z) (l : Q), value (w_store w) = Fin (inject_Z z) /\ (0 <= z <= 100)%Z /\
    w_left w = Fin l /\ l == m * inject_Z z / 100.

(** Every value written to the store is an integer. *)
Definition int_writes (w : world) : Prop :=
  Forall (fun u => exists z : Z, u = Fin (inject_Z z)) (store_writes (w_log w)).

(** ** The unquantized [Slider.jsx] (local [left] only, no store, no snapping) *)

(** What its [startDrag] measures on each press: [slider.getBoundingClientRect().left],
    [slider.clientWidth], and the thumb's [getBoundingClientRect()] [left] and [width]. *)
Record measures : Type := mkMeasures {
  sliderLeft : number; sliderWidth : number; thumbLeft : number; thumbWidth : number }.

(** The [dragData.current] object built by its [startDrag]. *)
Definition startDrag_data (ms : measures) (pageX : number) : drag_data :=
  let max := js_sub (sliderWidth ms) (thumbWidth ms) in
  let offset := js_sub (js_sub (thumbLeft ms) pageX) (sliderLeft ms) in
  {| dd_left := thumbLeft ms; dd_max := max; dd_offset := offset |}.

(** Its [drag(event)]: the same clamp, no snapping, only [setLeft]. *)
Definition drag_basic (dd : drag_data) (pageX : number) : drag_data * list effect :=
  let next := Math_max (Fin 0) (Math_min (js_add pageX (dd_offset dd)) (dd_max dd)) in
  if js_sneq (dd_left dd) next then
    ({| dd_left := next; dd_max := dd_max dd; dd_offset := dd_offset dd |}, [SetLeft next])
  else (dd, []).

(** Its page: the [left] state, the [dragData] ref and the body listeners. *)
Record bworld : Type := mkBWorld {
  b_left : number; b_drag : drag_data; b_moves : list nat; b_ups : list nat; b_fresh : nat }.

Definition run_drag_basic (pageX : number) (w : bworld) : bworld :=
  let '(dd, effs) := drag_basic (b_drag w) pageX in
  {| b_left := fold_left (fun l e => match e with SetLeft l' => l' | SetValue _ => l end)
                         effs (b_left w);
     b_drag := dd; b_moves := b_moves w; b_ups := b_ups w; b_fresh := b_fresh w |}.

Inductive bevent : Type :=
| BMouseDown (ms : measures) (pageX : number)
| BMouseMove (pageX : number)
| BMouseUp.

Definition dispatch_basic (w : bworld) (ev : bevent) : bworld :=
  match ev with
  | BMouseDown ms x =>
      {| b_left := b_left w; b_drag := startDrag_data ms x;
         b_moves := b_moves w ++ [b_fresh w]; b_ups := b_ups w ++ [b_fresh w];
         b_fresh := S (b_fresh w) |}
  | BMouseMove x => fold_left (fun w _ => run_drag_basic x w) (b_moves w) w
  | BMouseUp =>
      {| b_left := b_left w; b_drag := b_drag w;
         b_moves := fold_left (fun ls id => filter (fun j => negb (Nat.eqb j id)) ls)
                              (b_ups w) (b_moves w);
         b_ups := []; b_fresh := b_fresh w |}
  end.

(** First render: [useState(0)] and an empty [dragData.current]. *)
Definition bmount : bworld :=
  {| b_left := Fin 0; b_drag := mkDragData NaN NaN NaN; b_moves := []; b_ups := []; b_fresh := 0 |}.

(** ** Arithmetic of the model *)

Lemma Qle_bool_false (x y : Q) : Qle_bool x y = false -> y < x.
Proof.
  intros H. apply Qnot_le_lt. intros H'. apply Qle_bool_iff in H'. congruence.
Qed.

Lemma clamp_fin (c m : Q) :
  Math_max (Fin 0) (Math_min (Fin c) (Fin m)) = Fin (clampQ c m).
Proof.
  unfold Math_max, Math_min, clampQ, js_lt; cbn [is_nan orb].
  destruct (Qle_bool c m); cbn [negb];
    repeat match goal with |- context [Qle_bool ?a ?b] => destruct (Qle_bool a b) end;
    reflexivity.
Qed.

Lemma clampQ_cases (c m : Q) :
  (c <= m /\ c <= 0 /\ clampQ c m = 0) \/ (c <= m /\ 0 < c /\ clampQ c m = c) \/
  (m < c /\ m <= 0 /\ clampQ c m = 0) \/ (m < c /\ 0 < m /\ clampQ c m = m).
Proof.
  unfold clampQ.
  destruct (Qle_bool c m) eqn:E1; [apply Qle_bool_iff in E1 | apply Qle_bool_false in E1].
  - destruct (Qle_bool c 0) eqn:E2; [apply Qle_bool_iff in E2 | apply Qle_bool_false in E2].
    + left; auto.
    + right; left; auto.
  - destruct (Qle_bool m 0) eqn:E2; [apply Qle_bool_iff in E2 | apply Qle_bool_false in E2].
    + right; right; left; auto.
    + right; right; right; auto.
Qed.

Ltac clamp_cases c m :=
  destruct (clampQ_cases c m) as [[? [? ->]] | [[? [? ->]] | [[? [? ->]] | [? [? ->]]]]].

Lemma clampQ_spec (c m : Q) : clampQ c m == Qmax 0 (Qmin c m).
Proof.
  unfold clampQ.
  destruct (Qle_bool c m) eqn:E1; [apply Qle_bool_iff in E1 | apply Qle_bool_false in E1].
  - rewrite (Q.min_l c m E1).
    destruct (Qle_bool c 0) eqn:E2; [apply Qle_bool_iff in E2 | apply Qle_bool_false in E2].
    + rewrite (Q.max_l 0 c E2). reflexivity.
    + rewrite (Q.max_r 0 c (Qlt_le_weak _ _ E2)). reflexivity.
  - rewrite (Q.min_r c m (Qlt_le_weak _ _ E1)).
    destruct (Qle_bool m 0) eqn:E2; [apply Qle_bool_iff in E2 | apply Qle_bool_false in E2].
    + rewrite (Q.max_l 0 m E2). reflexivity.
    + rewrite (Q.max_r 0 m (Qlt_le_weak _ _ E2)). reflexivity.
Qed.

Lemma clampQ_bounds (c m : Q) : 0 <= m -> 0 <= clampQ c m /\ clampQ c m <= m.
Proof. intros Hm. clamp_cases c m; lra. Qed.

Lemma clampQ_low (c m : Q) : c <= 0 -> clampQ c m = 0.
Proof.
  intros Hc. clamp_cases c m; try reflexivity; lra.
Qed.

Lemma clampQ_high (c m : Q) : 0 < m -> m <= c -> clampQ c m == m.
Proof. intros Hm Hc. clamp_cases c m; lra. Qed.

Lemma clampQ_mono (c1 c2 m : Q) : c1 <= c2 -> clampQ c1 m <= clampQ c2 m.
Proof. intros H. clamp_cases c1 m; clamp_cases c2 m; lra. Qed.

Lemma clampQ_neg (c m : Q) : m < 0 -> clampQ c m = 0.
Proof. intros Hm. clamp_cases c m; try reflexivity; lra. Qed.

Lemma div_fin (x y : Q) : ~ y == 0 -> js_div (Fin x) (Fin y) = Fin (x / y).
Proof.
  intros Hy. cbn [js_div]. destruct (Qcompare y 0) eqn:E; try reflexivity.
  apply Qeq_alt in E. contradiction.
Qed.

Lemma round_int (z : Z) : Qfloor (inject_Z z + (1 # 2)) = z.
Proof.
  unfold Qfloor, Qplus, inject_Z; cbn [Qnum Qden].
  rewrite Z.mul_1_r, Pos.mul_1_l.
  change (Z.pos 2) with 2%Z. rewrite Z.div_add_l by lia. change (1 / 2)%Z with 0%Z. apply Z.add_0_r.
Qed.

Lemma round_bounds (q : Q) (M : Z) :
  0 <= q -> q <= inject_Z M -> (0 <= Qfloor (q + (1 # 2)) <= M)%Z.
Proof.
  intros H0 H1. split.
  - change 0%Z with (Qfloor 0). apply Qfloor_resp_le. lra.
  - assert (Hlt : inject_Z (Qfloor (q + (1 # 2))) < inject_Z (M + 1)).
    { rewrite inject_Z_plus. pose proof (Qfloor_le (q + (1 # 2))).
      change (inject_Z 1) with 1. lra. }
    rewrite <- Zlt_Qlt in Hlt. lia.
Qed.

Lemma drag_fin (M l m o x : Q) : ~ m == 0 -> ~ M == 0 ->
  drag (Fin M) (mkDragData (Fin l) (Fin m) (Fin o)) (Fin x) =
  (let n := clampQ (x + o) m in
   if Qeq_bool l n then (mkDragData (Fin l) (Fin m) (Fin o), [])
   else
     let v := inject_Z (Qfloor (n / m * M + (1 # 2))) in
     let n' := m * v / M in
     (mkDragData (Fin n') (Fin m) (Fin o), [SetValue (Fin v); SetLeft (Fin n')])).
Proof.
  intros Hm HM. unfold drag. cbn [dd_left dd_max dd_offset js_add].
  rewrite clamp_fin. unfold js_sneq. cbn [js_seq].
  destruct (Qeq_bool l (clampQ (x + o) m)); cbn [negb]; [reflexivity |].
  rewrite div_fin by assumption. cbn [js_mul Math_round].
  rewrite div_fin by assumption. reflexivity.
Qed.

(** ** One move event on finite data *)

Lemma run_drag_fin (L : listener) (x : Q) (w : world) (l m o M : Q) :
  w_drag w = mkDragData (Fin l) (Fin m) (Fin o) -> l_maxValue L = Fin M ->
  ~ m == 0 -> ~ M == 0 ->
  run_drag L (Fin x) w =
  (if Qeq_bool l (clampQ (x + o) m) then w
   else
     {| w_store := setValue (Fin (written_value M m o x)) (w_store w);
        w_left := Fin (m * written_value M m o x / M);
        w_drag := mkDragData (Fin (m * written_value M m o x / M)) (Fin m) (Fin o);
        w_moves := w_moves w; w_ups := w_ups w; w_fresh := w_fresh w;
        w_log := w_log w ++ [SetValue (Fin (written_value M m o x));
                             SetLeft (Fin (m * written_value M m o x / M))] |}).
Proof.
  intros Hd HL Hm HM. unfold run_drag. rewrite Hd, HL, drag_fin by assumption.
  cbv zeta. destruct (Qeq_bool l (clampQ (x + o) m)).
  - destruct w as [s lf dd mv up fr lg]; cbn in *; subst dd. reflexivity.
  - cbn. rewrite <- app_assoc. reflexivity.
Qed.

Lemma store_writes_app (l1 l2 : list effect) :
  store_writes (l1 ++ l2) = store_writes l1 ++ store_writes l2.
Proof. unfold store_writes. apply flat_map_app. Qed.

Section MoveEvent.
Variables (M m o x : Q).
Hypothesis Hm : ~ m == 0.
Hypothesis HM : ~ M == 0.

Local Abbreviation v := (written_value M m o x).
Local Abbreviation snapped := (m * written_value M m o x / M).

Lemma fold_drag :
  forall ls w l,
    w_drag w = mkDragData (Fin l) (Fin m) (Fin o) -> w_left w = Fin l ->
    Forall (fun L => l_maxValue L = Fin M) ls ->
    let w' := fold_left (fun w L => run_drag L (Fin x) w) ls w in
    (exists l', w_drag w' = mkDragData (Fin l') (Fin m) (Fin o) /\ w_left w' = Fin l' /\
       ((ls = [] /\ l' = l) \/ l' == clampQ (x + o) m \/ l' = snapped))
    /\ maxValue (w_store w') = maxValue (w_store w)
    /\ w_moves w' = w_moves w /\ w_ups w' = w_ups w /\ w_fresh w' = w_fresh w
    /\ (value (w_store w') = value (w_store w) \/ value (w_store w') = Fin v)
    /\ exists ws, w_log w' = w_log w ++ ws /\
         Forall (fun u => u = Fin v) (store_writes ws).
Proof.
  induction ls as [| L ls IH]; intros w l Hd Hl HF; cbn [fold_left].
  - split; [exists l; auto |]. repeat split; auto.
    exists []. rewrite app_nil_r. split; [reflexivity | constructor].
  - inversion HF as [| ? ? HL HF']; subst.
    rewrite (run_drag_fin L x w l m o M Hd HL Hm HM).
    destruct (Qeq_bool l (clampQ (x + o) m)) eqn:E.
    + apply Qeq_bool_iff in E.
      destruct (IH w l Hd Hl HF') as [[l' [Hd' [Hl' Hc]]] Rest].
      split; [| exact Rest].
      exists l'. repeat split; auto.
      destruct Hc as [[_ ->] | Hc]; auto.
    + set (w1 := {| w_store := setValue (Fin (written_value M m o x)) (w_store w);
                    w_left := Fin snapped;
                    w_drag := mkDragData (Fin snapped) (Fin m) (Fin o);
                    w_moves := w_moves w; w_ups := w_ups w; w_fresh := w_fresh w;
                    w_log := w_log w ++ [SetValue (Fin v); SetLeft (Fin snapped)] |}).
      change (fold_left (fun w L => run_drag L (Fin x) w) ls w1) with
        (fold_left (fun w L => run_drag L (Fin x) w) ls w1).
      destruct (IH w1 snapped eq_refl eq_refl HF')
        as [[l' [Hd' [Hl' Hc]]] [Hmax [Hmv [Hup [Hfr [Hval [ws [Hlog Hws]]]]]]]].
      split.
      * exists l'. repeat split; auto.
        destruct Hc as [[_ ->] | Hc]; auto.
      * split; [rewrite Hmax; reflexivity |].
        split; [rewrite Hmv; reflexivity |].
        split; [rewrite Hup; reflexivity |].
        split; [rewrite Hfr; reflexivity |].
        split.
        -- right. destruct Hval as [-> | ->]; reflexivity.
        -- exists ([SetValue (Fin v); SetLeft (Fin snapped)] ++ ws). split.
           ++ rewrite Hlog. cbn [w_log w1]. rewrite app_assoc. reflexivity.
           ++ rewrite store_writes_app. apply Forall_app. split; [| exact Hws].
              cbn. constructor; constructor.
Qed.

(** A move event either changes nothing the user sees, or leaves the thumb at the
    re-snapped offset with the store holding the matching value. *)
Lemma fold_drag_sync :
  forall ls w l,
    w_drag w = mkDragData (Fin l) (Fin m) (Fin o) -> w_left w = Fin l ->
    Forall (fun L => l_maxValue L = Fin M) ls ->
    let w' := fold_left (fun w L => run_drag L (Fin x) w) ls w in
    (w_left w' = w_left w /\ value (w_store w') = value (w_store w) /\
     (ls = [] \/ l == clampQ (x + o) m)) \/
    (w_left w' = Fin snapped /\ value (w_store w') = Fin v).
Proof.
  induction ls as [| L ls IH]; intros w l Hd Hl HF; cbn [fold_left].
  - left. auto.
  - inversion HF as [| ? ? HL HF']; subst.
    rewrite (run_drag_fin L x w l m o M Hd HL Hm HM).
    destruct (Qeq_bool l (clampQ (x + o) m)) eqn:E.
    + apply Qeq_bool_iff in E.
      destruct (IH w l Hd Hl HF') as [[H1 [H2 _]] | H]; [left | right; exact H].
      auto.
    + right.
      set (w1 := {| w_store := setValue (Fin (written_value M m o x)) (w_store w);
                    w_left := Fin snapped;
                    w_drag := mkDragData (Fin snapped) (Fin m) (Fin o);
                    w_moves := w_moves w; w_ups := w_ups w; w_fresh := w_fresh w;
                    w_log := w_log w ++ [SetValue (Fin v); SetLeft (Fin snapped)] |}).
      destruct (IH w1 snapped eq_refl eq_refl HF') as [[H1 [H2 _]] | H]; [| exact H].
      rewrite H1, H2. split; reflexivity.
Qed.

End MoveEvent.

Lemma ratio_bounds (n m M : Q) :
  0 < m -> 0 <= n -> n <= m -> 0 <= M -> 0 <= n / m * M /\ n / m * M <= M.
Proof.
  intros Hm Hn1 Hn2 HM.
  assert (H0 : 0 <= n / m) by (apply Qle_shift_div_l; lra).
  assert (H1 : n / m <= 1) by (apply Qle_shift_div_r; lra).
  split; nra.
Qed.

Lemma written_value_bounds (m o x : Q) :
  0 < m -> 0 <= written_value 100 m o x /\ written_value 100 m o x <= 100.
Proof.
  intros Hm. unfold written_value.
  destruct (clampQ_bounds (x + o) m (Qlt_le_weak _ _ Hm)) as [Hc1 Hc2].
  destruct (ratio_bounds (clampQ (x + o) m) m 100 Hm Hc1 Hc2 ltac:(discriminate))
    as [Hr1 Hr2].
  destruct (round_bounds _ 100 Hr1 Hr2) as [Hz1 Hz2].
  rewrite Zle_Qle in Hz1, Hz2. split; assumption.
Qed.

Lemma written_value_mono (M m o x1 x2 : Q) :
  0 < m -> 0 <= M -> x1 <= x2 -> written_value M m o x1 <= written_value M m o x2.
Proof.
  intros Hm HM Hx. unfold written_value. rewrite <- Zle_Qle.
  apply Qfloor_resp_le. apply Qplus_le_compat; [| apply Qle_refl].
  apply Qmult_le_compat_r; [| exact HM].
  unfold Qdiv. apply Qmult_le_compat_r.
  - apply clampQ_mono. lra.
  - apply Qinv_le_0_compat. lra.
Qed.

Lemma drop_all :
  forall ids ls, (forall L, In L ls -> In (l_id L) ids) ->
  fold_left (fun ls id => drop id ls) ids ls = [].
Proof.
  induction ids as [| i ids IH]; intros ls H; cbn [fold_left].
  - destruct ls as [| L ls]; [reflexivity |]. exfalso. apply (H L). left. reflexivity.
  - apply IH. intros L HL. unfold drop in HL. apply filter_In in HL as [HL Hne].
    destruct (H L HL) as [Hi | Hi]; [| exact Hi].
    subst i. rewrite Nat.eqb_refl in Hne. discriminate.
Qed.

(** ** The reachable pages *)

Lemma Reach_mount (sw tw : Q) : Reach (sw - tw) (mount (Fin sw) (Fin tw)).
Proof.
  unfold mount, initialize. cbn [SliderProvider value maxValue js_sub js_neg js_add js_mul].
  rewrite div_fin by discriminate.
  constructor; cbn; auto.
  eexists. split; reflexivity.
Qed.

Lemma Reach_step (m : Q) (w : world) (ev : event) :
  ~ m == 0 -> Reach m w -> event_ok ev -> Reach m (dispatch w ev).
Proof.
  intros Hm HR Hev. pose proof HR as [Hmax [l [Hl Hwl]] Hgeom Hoff Hcl Hids].
  destruct ev as [[x | | |] | [x | | |] |]; cbn in Hev; try contradiction.
  - (* mousedown: startDrag *)
    constructor; cbn; auto.
    + exists l. auto.
    + right. rewrite Hl. eexists. reflexivity.
    + apply Forall_app. split; [exact Hcl | constructor; [exact Hmax | constructor]].
    + intros L HL. apply in_app_or in HL as [HL | [<- | []]]; apply in_or_app.
      * left. auto.
      * right. left. reflexivity.
  - (* mousemove: every registered drag closure runs *)
    cbn [dispatch].
    destruct (w_moves w) as [| L0 ls] eqn:Emv.
    + cbn [fold_left]. exact HR.
    + destruct Hoff as [Hoff | [o Ho]]; [discriminate |].
      assert (Hd : w_drag w = mkDragData (Fin l) (Fin m) (Fin o)).
      { destruct (w_drag w); cbn in *; subst; reflexivity. }
      destruct (fold_drag 100 m o x Hm ltac:(discriminate) (L0 :: ls) w l Hd Hwl Hcl)
        as [[l' [Hd' [Hl' _]]] [Hmax' [Hmv' [Hup' _]]]].
      constructor.
      * rewrite Hmax'. exact Hmax.
      * exists l'. rewrite Hd'. auto.
      * rewrite Hd'. reflexivity.
      * right. exists o. rewrite Hd'. reflexivity.
      * rewrite Hmv', Emv. exact Hcl.
      * rewrite Hmv', Hup', Emv. exact Hids.
  - (* mouseup: every once-drop closure runs *)
    constructor; cbn; auto.
    + exists l. auto.
    + left. apply drop_all. exact Hids.
    + rewrite drop_all by exact Hids. constructor.
    + rewrite drop_all by exact Hids. intros L [].
Qed.

Lemma Reach_run (m : Q) :
  ~ m == 0 -> forall evs w, Forall event_ok evs -> Reach m w -> Reach m (run w evs).
Proof.
  intros Hm evs. induction evs as [| ev evs IH]; intros w Hevs Hw; [exact Hw |].
  inversion Hevs; subst. cbn [run fold_left]. apply IH; [assumption |].
  apply Reach_step; assumption.
Qed.

(** ** The store's [maxValue] *)

Lemma apply_effects_maxValue :
  forall effs w, maxValue (w_store (fold_left apply_effect effs w)) = maxValue (w_store w).
Proof.
  induction effs as [| e effs IH]; intros w; cbn [fold_left]; [reflexivity |].
  rewrite IH. destruct e; reflexivity.
Qed.

Lemma drags_maxValue (x : number) :
  forall ls w,
    maxValue (w_store (fold_left (fun w L => run_drag L x w) ls w)) = maxValue (w_store w).
Proof.
  induction ls as [| L ls IH]; intros w; cbn [fold_left]; [reflexivity |].
  rewrite IH. unfold run_drag. destruct (drag (l_maxValue L) (w_drag w) x) as [dd effs].
  rewrite apply_effects_maxValue. reflexivity.
Qed.

Lemma maxValue_run :
  forall evs w, maxValue (w_store (run w evs)) = maxValue (w_store w).
Proof.
  induction evs as [| ev evs IH]; intros w; [reflexivity |].
  change (run w (ev :: evs)) with (run (dispatch w ev) evs).
  rewrite IH. destruct ev as [x | x |]; cbn [dispatch]; try reflexivity.
  apply drags_maxValue.
Qed.

(** ** The registered listeners *)

Lemma apply_effects_listeners :
  forall effs w, w_moves (fold_left apply_effect effs w) = w_moves w /\
                 w_ups (fold_left apply_effect effs w) = w_ups w.
Proof.
  induction effs as [| e effs IH]; intros w; cbn [fold_left]; [split; reflexivity |].
  destruct (IH (apply_effect w e)) as [H1 H2]. rewrite H1, H2.
  destruct e; split; reflexivity.
Qed.

Lemma drags_listeners (x : number) :
  forall ls w,
    w_moves (fold_left (fun w L => run_drag L x w) ls w) = w_moves w /\
    w_ups (fold_left (fun w L => run_drag L x w) ls w) = w_ups w.
Proof.
  induction ls as [| L ls IH]; intros w; cbn [fold_left]; [split; reflexivity |].
  destruct (IH (run_drag L x w)) as [H1 H2]. rewrite H1, H2.
  unfold run_drag. destruct (drag (l_maxValue L) (w_drag w) x) as [dd effs].
  exact (apply_effects_listeners effs (set_drag w dd)).
Qed.

(** Every registered [drag] closure has its [drop] closure registered, whatever
    the events and the measurements. *)
Lemma ids_step (w : world) (ev : event) :
  (forall L, In L (w_moves w) -> In (l_id L) (w_ups w)) ->
  forall L, In L (w_moves (dispatch w ev)) -> In (l_id L) (w_ups (dispatch w ev)).
Proof.
  intros Hin L.
  destruct ev as [x | x |]; cbn [dispatch].
  - cbn [startDrag w_moves w_ups]. rewrite in_app_iff, in_app_iff.
    intros [H | [<- | []]]; [left; exact (Hin L H) | right; left; reflexivity].
  - destruct (drags_listeners x (w_moves w) w) as [H1 H2]. rewrite H1, H2. exact (Hin L).
  - cbn [w_moves]. rewrite (drop_all (w_ups w) (w_moves w) Hin). intros [].
Qed.

Lemma ids_run :
  forall evs w, (forall L, In L (w_moves w) -> In (l_id L) (w_ups w)) ->
  forall L, In L (w_moves (run w evs)) -> In (l_id L) (w_ups (run w evs)).
Proof.
  induction evs as [| ev evs IH]; intros w Hin; [exact Hin |].
  change (run w (ev :: evs)) with (run (dispatch w ev) evs).
  apply IH, ids_step, Hin.
Qed.

Lemma ids_mount (sw tw : number) :
  forall L, In L (w_moves (mount sw tw)) -> In (l_id L) (w_ups (mount sw tw)).
Proof.
  unfold mount. destruct (initialize sw tw SliderProvider). intros L [].
Qed.

Lemma drops_Forall (P : listener -> Prop) :
  forall ids ls, Forall P ls -> Forall P (fold_left (fun ls id => drop id ls) ids ls).
Proof.
  induction ids as [| i ids IH]; intros ls H; cbn [fold_left]; [exact H |].
  apply IH. unfold drop. apply Forall_forall. intros L HL.
  apply filter_In in HL as [HL _]. rewrite Forall_forall in H. exact (H L HL).
Qed.

(** Every registered [drag] closure captured [maxValue = 100]. *)
Lemma closures_step (w : world) (ev : event) :
  maxValue (w_store w) = Fin 100 ->
  Forall (fun L => l_maxValue L = Fin 100) (w_moves w) ->
  Forall (fun L => l_maxValue L = Fin 100) (w_moves (dispatch w ev)).
Proof.
  intros Hmax Hcl.
  destruct ev as [x | x |]; cbn [dispatch].
  - cbn [startDrag w_moves]. apply Forall_app. split; [exact Hcl |].
    constructor; [exact Hmax | constructor].
  - rewrite (proj1 (drags_listeners x (w_moves w) w)). exact Hcl.
  - cbn [w_moves]. apply drops_Forall. exact Hcl.
Qed.

Lemma closures_run :
  forall evs w, maxValue (w_store w) = Fin 100 ->
  Forall (fun L => l_maxValue L = Fin 100) (w_moves w) ->
  Forall (fun L => l_maxValue L = Fin 100) (w_moves (run w evs)).
Proof.
  induction evs as [| ev evs IH]; intros w Hmax Hcl; [exact Hcl |].
  change (run w (ev :: evs)) with (run (dispatch w ev) evs).
  apply IH; [| apply closures_step; assumption].
  change (maxValue (w_store (run w [ev])) = Fin 100). rewrite maxValue_run. exact Hmax.
Qed.

(** ** The store's [value] stays in range *)

Lemma range_step (m : Q) (w : world) (ev : event) :
  0 < m -> Reach m w -> event_ok ev ->
  in_range (value (w_store w)) -> Forall in_range (store_writes (w_log w)) ->
  in_range (value (w_store (dispatch w ev))) /\
  Forall in_range (store_writes (w_log (dispatch w ev))).
Proof.
  intros Hm HR Hev Hv Hws. pose proof HR as [Hmax [l [Hl Hwl]] Hgeom Hoff Hcl Hids].
  destruct ev as [[x | | |] | [x | | |] |]; cbn in Hev; try contradiction;
    try (split; assumption).
  cbn [dispatch]. destruct (w_moves w) as [| L0 ls] eqn:Emv.
  - cbn [fold_left]. split; assumption.
  - destruct Hoff as [Hoff | [o Ho]]; [discriminate |].
    assert (Hd : w_drag w = mkDragData (Fin l) (Fin m) (Fin o)).
    { destruct (w_drag w); cbn in *; subst; reflexivity. }
    assert (Hm0 : ~ m == 0) by (intros E; rewrite E in Hm; discriminate).
    destruct (fold_drag 100 m o x Hm0 ltac:(discriminate) (L0 :: ls) w l Hd Hwl Hcl)
      as [_ [_ [_ [_ [_ [Hval [ws [Hlog Hws']]]]]]]].
    destruct (written_value_bounds m o x Hm) as [Hb1 Hb2].
    split.
    + destruct Hval as [-> | ->]; [exact Hv |]. eexists. eauto.
    + rewrite Hlog, store_writes_app. apply Forall_app. split; [exact Hws |].
      eapply Forall_impl; [| exact Hws']. intros u ->. eexists. eauto.
Qed.

Lemma range_run (m : Q) :
  0 < m -> forall evs w, Forall event_ok evs -> Reach m w ->
  in_range (value (w_store w)) -> Forall in_range (store_writes (w_log w)) ->
  in_range (value (w_store (run w evs))) /\
  Forall in_range (store_writes (w_log (run w evs))).
Proof.
  intros Hm evs. induction evs as [| ev evs IH]; intros w Hevs HR Hv Hws;
    [split; assumption |].
  inversion Hevs; subst. cbn [run fold_left].
  assert (Hm0 : ~ m == 0) by (intros E; rewrite E in Hm; discriminate).
  destruct (range_step m w ev Hm HR ltac:(assumption) Hv Hws) as [Hv' Hws'].
  apply IH; try assumption. apply Reach_step; assumption.
Qed.

(** * The claims *)

(** C10: the context object exposes exactly [maxValue], [value] and [setValue];
    [setValue] keeps [maxValue]; the provider creates the store with
    [maxValue = 100] and [value = 50]; and no sequence of events (of any
    numbers) changes [maxValue]. *)
Theorem C10_maxValue_constant :
  (forall s, ctx_maxValue (provide s) = maxValue s /\ ctx_value (provide s) = value s /\
             ctx_setValue (provide s) = setValue) /\
  (forall s v, maxValue (ctx_setValue (provide s) v s) = maxValue s) /\
  SliderProvider = {| maxValue := Fin 100; value := Fin 50 |} /\
  (forall sw tw evs, maxValue (w_store (run (mount sw tw) evs)) = Fin 100).
Proof.
  split; [intros s; repeat split |].
  split; [intros s v; reflexivity |].
  split; [reflexivity |].
  intros sw tw evs. rewrite maxValue_run. unfold mount.
  destruct (initialize sw tw SliderProvider). reflexivity.
Qed.

(** C2: with positive drag geometry, the store satisfies [0 <= value <= maxValue]
    (with [maxValue = 100]) initially and after any sequence of browser events,
    and every value ever written to the store lies in [[0, maxValue]]. *)
Theorem C2_value_in_range (sw tw : Q) (evs : list event) :
  0 < sw - tw -> Forall event_ok evs ->
  maxValue (w_store (run (mount (Fin sw) (Fin tw)) evs)) = Fin 100 /\
  in_range (value (w_store (run (mount (Fin sw) (Fin tw)) evs))) /\
  Forall in_range (store_writes (w_log (run (mount (Fin sw) (Fin tw)) evs))).
Proof.
  intros Hm Hevs.
  split.
  - rewrite maxValue_run. unfold mount.
    destruct (initialize (Fin sw) (Fin tw) SliderProvider). reflexivity.
  - apply (range_run (sw - tw) Hm evs _ Hevs (Reach_mount sw tw)).
    + unfold mount. destruct (initialize (Fin sw) (Fin tw) SliderProvider).
      exists 50. cbn. split; [reflexivity | split; discriminate].
    + unfold mount. destruct (initialize (Fin sw) (Fin tw) SliderProvider).
      constructor.
Qed.

(** Witness of C2 on the scenario geometry (track 320, thumb 32). *)
Lemma C2_value_in_range_witness :
  0 < 320 - 32 /\ Forall event_ok [MouseDown (Fin 200); MouseMove (Fin 344); MouseUp] /\
  (maxValue (w_store (run (mount (Fin 320) (Fin 32))
                        [MouseDown (Fin 200); MouseMove (Fin 344); MouseUp])) = Fin 100 /\
   in_range (value (w_store (run (mount (Fin 320) (Fin 32))
                        [MouseDown (Fin 200); MouseMove (Fin 344); MouseUp]))) /\
   Forall in_range (store_writes (w_log (run (mount (Fin 320) (Fin 32))
                        [MouseDown (Fin 200); MouseMove (Fin 344); MouseUp])))).
Proof.
  split; [reflexivity |]. split; [repeat constructor |].
  apply C2_value_in_range; [reflexivity | repeat constructor].
Defined.

(** C1: on a move event with positive drag geometry [m], the [drag] closure
    computes [candidate = pageX + offset], clamps it to [[0, m]] giving
    [nextLeft]; when [nextLeft] equals the recorded [left] nothing changes,
    otherwise [value = round((nextLeft / m) * maxValue)] is written to the store
    and the re-snapped [(m * value) / maxValue] to the display state (and to
    [dragData.left]). *)
Theorem C1_drag_step (L : listener) (w : world) (l m o x : Q) :
  0 < m ->
  let w0 := set_drag w (mkDragData (Fin l) (Fin m) (Fin o)) in
  exists nextLeft : Q,
    nextLeft == Qmax 0 (Qmin (x + o) m) /\
    (nextLeft == l -> run_drag L (Fin x) w0 = w0) /\
    (~ nextLeft == l ->
     let value := Math_round (js_mul (js_div (Fin nextLeft) (Fin m)) (l_maxValue L)) in
     let next := js_div (js_mul (Fin m) value) (l_maxValue L) in
     run_drag L (Fin x) w0 =
       {| w_store := setValue value (w_store w0); w_left := next;
          w_drag := mkDragData next (Fin m) (Fin o);
          w_moves := w_moves w0; w_ups := w_ups w0; w_fresh := w_fresh w0;
          w_log := w_log w0 ++ [SetValue value; SetLeft next] |}).
Proof.
  intros Hm. cbv zeta. exists (clampQ (x + o) m).
  split; [apply clampQ_spec |].
  unfold run_drag, drag. cbn [w_drag set_drag dd_left dd_max dd_offset js_add].
  rewrite clamp_fin. unfold js_sneq. cbn [js_seq].
  destruct (Qeq_bool l (clampQ (x + o) m)) eqn:B.
  - apply Qeq_bool_iff in B. split.
    + intros _. cbn. reflexivity.
    + intros E. exfalso. apply E. symmetry. exact B.
  - split.
    + intros E. exfalso.
      assert (B' : Qeq_bool l (clampQ (x + o) m) = true)
        by (apply Qeq_bool_iff; symmetry; exact E).
      congruence.
    + intros _. cbn. rewrite <- app_assoc. reflexivity.
Qed.

(** Witness of C1: the scenario slider (track 320, thumb 32, offset 144) after a
    press at [pageX = 200], moved to [pageX = 300]. *)
Lemma C1_drag_step_witness :
  0 < 288 /\
  (let w0 := set_drag (mount (Fin 320) (Fin 32)) (mkDragData (Fin 144) (Fin 288) (Fin (-56))) in
   exists nextLeft : Q,
    nextLeft == Qmax 0 (Qmin (300 + -56) 288) /\
    (nextLeft == 144 -> run_drag (mkListener 0 (Fin 100)) (Fin 300) w0 = w0) /\
    (~ nextLeft == 144 ->
     let value := Math_round (js_mul (js_div (Fin nextLeft) (Fin 288)) (Fin 100)) in
     let next := js_div (js_mul (Fin 288) value) (Fin 100) in
     run_drag (mkListener 0 (Fin 100)) (Fin 300) w0 =
       {| w_store := setValue value (w_store w0); w_left := next;
          w_drag := mkDragData next (Fin 288) (Fin (-56));
          w_moves := w_moves w0; w_ups := w_ups w0; w_fresh := w_fresh w0;
          w_log := w_log w0 ++ [SetValue value; SetLeft next] |})).
Proof.
  split; [reflexivity |].
  exact (C1_drag_step (mkListener 0 (Fin 100)) (mount (Fin 320) (Fin 32))
           144 288 (-56) 300 eq_refl).
Defined.

(** C4: for an integer [value] in [[0, maxValue]], [maxValue > 0] and positive
    drag geometry, [initialize] puts the thumb at [(maxTravel * value) / maxValue]
    and mapping that offset back as [drag] does gives [value] again. *)
Theorem C4_roundtrip (sw tw M : Q) (v : Z) :
  0 < sw - tw -> 0 < M -> 0 <= inject_Z v -> inject_Z v <= M ->
  let init := initialize (Fin sw) (Fin tw) {| maxValue := Fin M; value := Fin (inject_Z v) |} in
  snd init = Fin ((sw - tw) * inject_Z v / M) /\
  offset_to_value (snd init) (dd_max (fst init)) (Fin M) = Fin (inject_Z v).
Proof.
  intros Hm HM _ _. cbv zeta.
  assert (Hm0 : ~ sw - tw == 0) by (intros E; rewrite E in Hm; discriminate).
  assert (HM0 : ~ M == 0) by (intros E; rewrite E in HM; discriminate).
  unfold initialize. cbn [fst snd js_sub js_neg js_add js_mul dd_max value maxValue].
  rewrite div_fin by exact HM0. split; [reflexivity |].
  unfold offset_to_value. rewrite div_fin by exact Hm0. cbn [js_mul Math_round].
  assert (E : (sw + - tw) * inject_Z v / M / (sw + - tw) * M == inject_Z v)
    by (field; split; assumption).
  rewrite E, round_int. reflexivity.
Qed.

Lemma C4_roundtrip_witness :
  0 < 320 - 32 /\ 0 < 100 /\ 0 <= inject_Z 37 /\ inject_Z 37 <= 100 /\
  (let init := initialize (Fin 320) (Fin 32)
                 {| maxValue := Fin 100; value := Fin (inject_Z 37) |} in
   snd init = Fin ((320 - 32) * inject_Z 37 / 100) /\
   offset_to_value (snd init) (dd_max (fst init)) (Fin 100) = Fin (inject_Z 37)).
Proof.
  split; [reflexivity |]. split; [reflexivity |].
  split; [discriminate |]. split; [discriminate |].
  apply (C4_roundtrip 320 32 100 37); [reflexivity | reflexivity | discriminate | discriminate].
Defined.

Lemma in_two_value (a b u : number) : In (SetValue u) [SetValue a; SetLeft b] -> u = a.
Proof. intros [H | [H | []]]; [congruence | discriminate]. Qed.

Lemma in_two_left (a b u : number) : In (SetLeft u) [SetValue a; SetLeft b] -> u = b.
Proof. intros [H | [H | []]]; [discriminate | congruence]. Qed.

Lemma floor_low (m M : Q) : ~ m == 0 -> Qfloor (0 / m * M + (1 # 2)) = 0%Z.
Proof.
  intros Hm. setoid_replace (0 / m * M) with 0 by (field; exact Hm). reflexivity.
Qed.

(** C6: on a move event ([maxTravel > 0], integer [maxValue > 0]), a candidate
    offset below [0] emits value [0] at offset [0], and one above [maxTravel]
    emits [maxValue] at offset [maxTravel]; in the scenario [maxValue = 100],
    track 320, thumb 32 ([maxTravel = 288], initial offset [144]), a press at
    [pageX = 200] (pointer offset [-56]) and a move to candidate [288] gives
    value [100] at offset [288], a move to candidate [-50] gives value [0]. *)
Theorem C6_boundaries (M : Z) (l m o x : Q) :
  (0 < M)%Z -> 0 < m ->
  let effs := snd (drag (Fin (inject_Z M)) (mkDragData (Fin l) (Fin m) (Fin o)) (Fin x)) in
  (x + o < 0 -> forall u, In (SetValue u) effs -> fin_eq u 0) /\
  (x + o < 0 -> forall u, In (SetLeft u) effs -> fin_eq u 0) /\
  (x + o < 0 -> ~ l == 0 -> effs <> []) /\
  (m < x + o -> forall u, In (SetValue u) effs -> fin_eq u (inject_Z M)) /\
  (m < x + o -> forall u, In (SetLeft u) effs -> fin_eq u m) /\
  (m < x + o -> ~ l == m -> effs <> []) /\
  (let w0 := mount (Fin 320) (Fin 32) in
   fin_eq (w_left w0) 144 /\
   fin_eq (dd_offset (w_drag (run w0 [MouseDown (Fin 200)]))) (-56) /\
   value (w_store (run w0 [MouseDown (Fin 200); MouseMove (Fin 344)])) = Fin 100 /\
   fin_eq (w_left (run w0 [MouseDown (Fin 200); MouseMove (Fin 344)])) 288 /\
   value (w_store (run w0 [MouseDown (Fin 200); MouseMove (Fin 6)])) = Fin 0 /\
   fin_eq (w_left (run w0 [MouseDown (Fin 200); MouseMove (Fin 6)])) 0).
Proof.
  intros HM Hm. cbv zeta.
  assert (Hm0 : ~ m == 0) by (intros E; rewrite E in Hm; discriminate).
  assert (HM0 : ~ inject_Z M == 0).
  { intros E. rewrite Zlt_Qlt in HM. rewrite E in HM. discriminate. }
  rewrite drag_fin by assumption. cbv zeta.
  assert (Hlow : x + o < 0 -> clampQ (x + o) m = 0)
    by (intros H; apply clampQ_low; apply Qlt_le_weak; exact H).
  assert (Hz : m < x + o ->
               Qfloor (clampQ (x + o) m / m * inject_Z M + (1 # 2)) = M).
  { intros H. rewrite (clampQ_high _ _ Hm (Qlt_le_weak _ _ H)).
    setoid_replace (m / m * inject_Z M) with (inject_Z M) by (field; exact Hm0).
    apply round_int. }
  split; [| split; [| split; [| split; [| split; [| split]]]]].
  - intros H u Hu. rewrite (Hlow H) in Hu.
    destruct (Qeq_bool l 0); cbn [snd In] in Hu; [contradiction |].
    apply in_two_value in Hu; subst u.
    cbn [fin_eq]. rewrite floor_low by exact Hm0. reflexivity.
  - intros H u Hu. rewrite (Hlow H) in Hu.
    destruct (Qeq_bool l 0); cbn [snd In] in Hu; [contradiction |].
    apply in_two_left in Hu; subst u.
    cbn [fin_eq]. rewrite floor_low by exact Hm0. field. exact HM0.
  - intros H Hl. rewrite (Hlow H).
    destruct (Qeq_bool l 0) eqn:B; [| discriminate].
    apply Qeq_bool_iff in B. contradiction.
  - intros H u Hu.
    destruct (Qeq_bool l (clampQ (x + o) m)); cbn [snd In] in Hu; [contradiction |].
    apply in_two_value in Hu; subst u.
    cbn [fin_eq]. rewrite (Hz H). reflexivity.
  - intros H u Hu.
    destruct (Qeq_bool l (clampQ (x + o) m)); cbn [snd In] in Hu; [contradiction |].
    apply in_two_left in Hu; subst u.
    cbn [fin_eq]. rewrite (Hz H). field. exact HM0.
  - intros H Hl.
    destruct (Qeq_bool l (clampQ (x + o) m)) eqn:B; [| discriminate].
    apply Qeq_bool_iff in B. exfalso. apply Hl.
    rewrite B. apply clampQ_high; [exact Hm | apply Qlt_le_weak; exact H].
  - vm_compute. repeat split; reflexivity.
Qed.

Lemma C6_boundaries_witness :
  (0 < 100)%Z /\ 0 < 288 /\
  (let effs := snd (drag (Fin (inject_Z 100)) (mkDragData (Fin 144) (Fin 288) (Fin (-56)))
                         (Fin 6)) in
   (6 + -56 < 0 -> forall u, In (SetValue u) effs -> fin_eq u 0) /\
   (6 + -56 < 0 -> forall u, In (SetLeft u) effs -> fin_eq u 0) /\
   (6 + -56 < 0 -> ~ 144 == 0 -> effs <> []) /\
   (288 < 6 + -56 -> forall u, In (SetValue u) effs -> fin_eq u (inject_Z 100)) /\
   (288 < 6 + -56 -> forall u, In (SetLeft u) effs -> fin_eq u 288) /\
   (288 < 6 + -56 -> ~ 144 == 288 -> effs <> []) /\
   (let w0 := mount (Fin 320) (Fin 32) in
    fin_eq (w_left w0) 144 /\
    fin_eq (dd_offset (w_drag (run w0 [MouseDown (Fin 200)]))) (-56) /\
    value (w_store (run w0 [MouseDown (Fin 200); MouseMove (Fin 344)])) = Fin 100 /\
    fin_eq (w_left (run w0 [MouseDown (Fin 200); MouseMove (Fin 344)])) 288 /\
    value (w_store (run w0 [MouseDown (Fin 200); MouseMove (Fin 6)])) = Fin 0 /\
    fin_eq (w_left (run w0 [MouseDown (Fin 200); MouseMove (Fin 6)])) 0)).
Proof.
  split; [reflexivity |]. split; [reflexivity |].
  exact (C6_boundaries 100 144 288 (-56) 6 eq_refl eq_refl).
Defined.

(** ** Sequences of move events *)

Lemma StronglySorted_app {A : Type} (R : A -> A -> Prop) :
  forall l1 l2, StronglySorted R l1 -> StronglySorted R l2 ->
  (forall a b, In a l1 -> In b l2 -> R a b) -> StronglySorted R (l1 ++ l2).
Proof.
  induction l1 as [| a l1 IH]; intros l2 H1 H2 H12; [exact H2 |].
  inversion H1 as [| ? ? Hs Hf]; subst. cbn. constructor.
  - apply IH; auto. intros a' b Ha Hb. apply H12; [right |]; assumption.
  - apply Forall_app. split; [exact Hf |].
    apply Forall_forall. intros b Hb. apply H12; [left; reflexivity | exact Hb].
Qed.

Lemma StronglySorted_const {A : Type} (R : A -> A -> Prop) (c : A) :
  R c c -> forall l, Forall (fun u => u = c) l -> StronglySorted R l.
Proof.
  intros Hc. induction l as [| a l IH]; intros Hl; constructor.
  - inversion Hl; auto.
  - inversion Hl as [| ? ? Ha Hl']; subst.
    eapply Forall_impl; [| exact Hl']. intros u ->. exact Hc.
Qed.

Lemma moves_sorted (m o : Q) (Hm : 0 < m) :
  forall xs w, StronglySorted Qle xs -> Reach m w -> w_moves w <> [] ->
  dd_offset (w_drag w) = Fin o ->
  exists ws, w_log (run w (moves xs)) = w_log w ++ ws /\
    StronglySorted num_le (store_writes ws) /\
    Forall (fun u => exists y, In y xs /\ u = Fin (written_value 100 m o y)) (store_writes ws).
Proof.
  assert (Hm0 : ~ m == 0) by (intros E; rewrite E in Hm; discriminate).
  induction xs as [| y ys IH]; intros w Hs HR Hne Ho.
  - exists []. rewrite app_nil_r. repeat constructor.
  - inversion Hs as [| ? ? Hs' Hy]; subst.
    change (run w (moves (y :: ys))) with (run (dispatch w (MouseMove (Fin y))) (moves ys)).
    pose proof HR as [Hmax [l [Hl Hwl]] Hgeom Hoff Hcl Hids].
    assert (Hd : w_drag w = mkDragData (Fin l) (Fin m) (Fin o)).
    { destruct (w_drag w); cbn in *; subst; reflexivity. }
    destruct (fold_drag 100 m o y Hm0 ltac:(discriminate) (w_moves w) w l Hd Hwl Hcl)
      as [[l' [Hd' _]] [_ [Hmv' [_ [_ [_ [ws1 [Hlog1 Hws1]]]]]]]].
    assert (HR1 : Reach m (dispatch w (MouseMove (Fin y)))).
    { apply Reach_step; [exact Hm0 | exact HR | exact I]. }
    destruct (IH (dispatch w (MouseMove (Fin y))) Hs' HR1)
      as [ws2 [Hlog2 [Hss2 Hws2]]].
    { cbn [dispatch]. rewrite Hmv'. exact Hne. }
    { cbn [dispatch]. rewrite Hd'. reflexivity. }
    exists (ws1 ++ ws2). split; [| split].
    + rewrite Hlog2. cbn [dispatch]. rewrite Hlog1, app_assoc. reflexivity.
    + rewrite store_writes_app. apply StronglySorted_app; [| exact Hss2 |].
      * apply (StronglySorted_const num_le (Fin (written_value 100 m o y)));
          [apply Qle_refl | exact Hws1].
      * intros a b Ha Hb.
        rewrite Forall_forall in Hws1, Hws2, Hy.
        rewrite (Hws1 a Ha). destruct (Hws2 b Hb) as [y' [Hy' ->]].
        apply written_value_mono; [exact Hm | discriminate | exact (Hy y' Hy')].
    + rewrite store_writes_app. apply Forall_app. split.
      * eapply Forall_impl; [| exact Hws1]. intros u ->. exists y. split; [left |]; reflexivity.
      * eapply Forall_impl; [| exact Hws2]. intros u [y' [Hy' ->]].
        exists y'. split; [right; exact Hy' | reflexivity].
Qed.

Lemma moves_idle (w : world) (xs : list Q) : w_moves w = [] -> run w (moves xs) = w.
Proof.
  intros E. induction xs as [| y ys IH]; [reflexivity |].
  change (run w (moves (y :: ys))) with (run (dispatch w (MouseMove (Fin y))) (moves ys)).
  replace (dispatch w (MouseMove (Fin y))) with w; [exact IH |].
  cbn [dispatch]. rewrite E. reflexivity.
Qed.

(** C5: with positive drag geometry and the store's [maxValue = 100], after any
    sequence of events (earlier drags, releases, presses that left several [drag]
    closures registered), move events whose pointer coordinates never decrease
    make the sequence of values they write to the store non-decreasing. *)
Theorem C5_monotone_values (sw tw : Q) (evs : list event) (xs : list Q) :
  0 < sw - tw -> Forall event_ok evs -> Sorted Qle xs ->
  exists ws,
    w_log (run (run (mount (Fin sw) (Fin tw)) evs) (moves xs)) =
      w_log (run (mount (Fin sw) (Fin tw)) evs) ++ ws /\
    Sorted num_le (store_writes ws).
Proof.
  intros Hm Hevs Hs.
  assert (Hm0 : ~ sw - tw == 0) by (intros E; rewrite E in Hm; discriminate).
  set (w := run (mount (Fin sw) (Fin tw)) evs).
  assert (HR : Reach (sw - tw) w)
    by (apply Reach_run; [exact Hm0 | exact Hevs | apply Reach_mount]).
  destruct (w_moves w) as [| L ls] eqn:Emv.
  - exists []. rewrite moves_idle by exact Emv. rewrite app_nil_r.
    split; [reflexivity | constructor].
  - assert (Hne : w_moves w <> []) by (rewrite Emv; discriminate).
    destruct (r_offset _ _ HR) as [E | [o Ho]]; [contradiction |].
    destruct (moves_sorted (sw - tw) o Hm xs w
                (Sorted_StronglySorted (fun a b c => Qle_trans a b c) Hs) HR Hne Ho)
      as [ws [Hlog [Hss _]]].
    exists ws. split; [exact Hlog | apply StronglySorted_Sorted; exact Hss].
Qed.

Lemma C5_monotone_values_witness :
  0 < 320 - 32 /\
  Forall event_ok [MouseDown (Fin 200); MouseMove (Fin 300); MouseDown (Fin 180)] /\
  Sorted Qle [150; 200; 250; 400] /\
  exists ws,
    w_log (run (run (mount (Fin 320) (Fin 32))
                    [MouseDown (Fin 200); MouseMove (Fin 300); MouseDown (Fin 180)])
               (moves [150; 200; 250; 400])) =
      w_log (run (mount (Fin 320) (Fin 32))
                 [MouseDown (Fin 200); MouseMove (Fin 300); MouseDown (Fin 180)]) ++ ws /\
    Sorted num_le (store_writes ws).
Proof.
  assert (Hs : Sorted Qle [150; 200; 250; 400]) by (repeat constructor; discriminate).
  split; [reflexivity |]. split; [repeat constructor |]. split; [exact Hs |].
  exact (C5_monotone_values 320 32
           [MouseDown (Fin 200); MouseMove (Fin 300); MouseDown (Fin 180)]
           [150; 200; 250; 400] eq_refl ltac:(repeat constructor) Hs).
Defined.

(** C7 (as stated): with the thumb wider than the track the offset is not 0
    after initialization: track 20, thumb 32 and [value = 50] put it at [-6]. *)
Lemma C7_negative_travel_cex :
  fin_eq (w_left (mount (Fin 20) (Fin 32))) (-6) /\
  ~ fin_eq (w_left (mount (Fin 20) (Fin 32))) 0.
Proof. split; vm_compute; [reflexivity | discriminate]. Qed.

(** C7 (amended): when [trackWidth - thumbWidth < 0], [initialize] does not
    clamp: the offset is [(maxTravel * value) / maxValue] ([value = 50],
    [maxValue = 100]); every move event handled during a drag clamps its
    candidate to [0], so after any such event the offset is [0]. *)
Theorem C7_negative_travel (sw tw x : Q) (evs : list event) :
  sw - tw < 0 -> Forall event_ok evs ->
  fin_eq (w_left (mount (Fin sw) (Fin tw))) ((sw - tw) * 50 / 100) /\
  (w_moves (run (mount (Fin sw) (Fin tw)) evs) <> [] ->
   fin_eq (w_left (dispatch (run (mount (Fin sw) (Fin tw)) evs) (MouseMove (Fin x)))) 0).
Proof.
  intros Hm Hevs.
  assert (Hm0 : ~ sw - tw == 0) by (intros E; rewrite E in Hm; discriminate).
  split.
  - unfold mount, initialize. cbn [SliderProvider value maxValue js_sub js_neg js_add js_mul].
    rewrite div_fin by discriminate. cbn. apply Qeq_refl.
  - set (w := run (mount (Fin sw) (Fin tw)) evs). intros Hne.
    assert (HR : Reach (sw - tw) w)
      by (apply Reach_run; [exact Hm0 | exact Hevs | apply Reach_mount]).
    pose proof HR as [Hmax [l [Hl Hwl]] Hgeom Hoff Hcl Hids].
    destruct Hoff as [E | [o Ho]]; [contradiction |].
    assert (Hd : w_drag w = mkDragData (Fin l) (Fin (sw - tw)) (Fin o)).
    { destruct (w_drag w); cbn in *; subst; reflexivity. }
    destruct (fold_drag 100 (sw - tw) o x Hm0 ltac:(discriminate) (w_moves w) w l Hd Hwl Hcl)
      as [[l' [_ [Hl' Hc]]] _].
    cbn [dispatch]. rewrite Hl'. cbn [fin_eq].
    destruct Hc as [[E _] | [Hc | Hc]]; [contradiction | |].
    + rewrite Hc, clampQ_neg by exact Hm. apply Qeq_refl.
    + rewrite Hc. unfold written_value. rewrite clampQ_neg by exact Hm.
      rewrite floor_low by exact Hm0. field.
Qed.

Lemma C7_negative_travel_witness :
  20 - 32 < 0 /\ Forall event_ok [MouseDown (Fin 100)] /\
  (fin_eq (w_left (mount (Fin 20) (Fin 32))) ((20 - 32) * 50 / 100) /\
   (w_moves (run (mount (Fin 20) (Fin 32)) [MouseDown (Fin 100)]) <> [] ->
    fin_eq (w_left (dispatch (run (mount (Fin 20) (Fin 32)) [MouseDown (Fin 100)])
                             (MouseMove (Fin 5)))) 0)).
Proof.
  split; [reflexivity |]. split; [repeat constructor |].
  apply (C7_negative_travel 20 32 5 [MouseDown (Fin 100)]); [reflexivity | repeat constructor].
Defined.

(** C8: no configuration with [maxValue <= 0] is ever accepted: the store is
    created only by [SliderProvider], which takes no configuration and fixes
    [maxValue = 100]; no event changes it, and every registered [drag] closure
    captured it, so every division by [maxValue] (in [initialize] and in each
    [drag]) is by [100], whatever the measurements and the events. *)
Theorem C8_maxValue_fixed :
  maxValue SliderProvider = Fin 100 /\
  forall (sw tw : number) (evs : list event),
    maxValue (w_store (run (mount sw tw) evs)) = Fin 100 /\
    Forall (fun L => l_maxValue L = Fin 100) (w_moves (run (mount sw tw) evs)).
Proof.
  split; [reflexivity |]. intros sw tw evs.
  assert (H0 : maxValue (w_store (mount sw tw)) = Fin 100)
    by (unfold mount; destruct (initialize sw tw SliderProvider); reflexivity).
  split.
  - rewrite maxValue_run. exact H0.
  - apply closures_run; [exact H0 |].
    unfold mount. destruct (initialize sw tw SliderProvider). constructor.
Qed.

(** C9 (as stated): a second press during a drag registers a second [drag]
    closure. *)
Lemma C9_duplicate_listener_cex :
  length (w_moves (run (mount (Fin 320) (Fin 32)) [MouseDown (Fin 200); MouseDown (Fin 200)]))
    = 2%nat.
Proof. vm_compute. reflexivity. Qed.

(** C9 (amended): a press is not guarded: every press registers one more
    [drag] closure, also while a drag is in progress, and the next release
    removes all of them, whatever the measurements and the earlier events. *)
Theorem C9_listeners (sw tw x : number) (evs : list event) :
  let w := run (mount sw tw) evs in
  length (w_moves (dispatch w (MouseDown x))) = S (length (w_moves w)) /\
  w_moves (dispatch w MouseUp) = [].
Proof.
  intros w. split.
  - cbn [dispatch startDrag w_moves]. rewrite length_app. cbn. lia.
  - cbn [dispatch w_moves]. apply drop_all. apply ids_run, ids_mount.
Qed.

(** C3: two move events at the same pointer position (so the same clamped
    offset, [100]) during one drag both update the state: the first writes
    [value = 35] and the re-snapped offset [100.8] into [dragData.left], which
    then differs from the second event's clamped [100], so the second event
    writes [35] and [100.8] again. *)
Theorem C3_repeated_update :
  let w0 := run (mount (Fin 320) (Fin 32)) [MouseDown (Fin 200)] in
  let w1 := dispatch w0 (MouseMove (Fin 156)) in
  let w2 := dispatch w1 (MouseMove (Fin 156)) in
  dd_offset (w_drag w1) = dd_offset (w_drag w0) /\
  fin_eq (dd_offset (w_drag w0)) (-56) /\
  fin_eq (w_left w1) (504 # 5) /\
  w_log w1 = w_log w0 ++ [SetValue (Fin 35); SetLeft (w_left w1)] /\
  w_log w2 = w_log w1 ++ [SetValue (Fin 35); SetLeft (w_left w1)].
Proof. vm_compute. repeat split; reflexivity. Qed.

(** * Further properties of the code *)

(** ** The thumb offset follows the store value *)

Lemma written_value_int_bounds (m o x : Q) :
  0 < m -> (0 <= Qfloor (clampQ (x + o) m / m * 100 + (1 # 2)) <= 100)%Z.
Proof.
  intros Hm.
  destruct (clampQ_bounds (x + o) m (Qlt_le_weak _ _ Hm)) as [Hc1 Hc2].
  destruct (ratio_bounds (clampQ (x + o) m) m 100 Hm Hc1 Hc2 ltac:(discriminate))
    as [Hr1 Hr2].
  exact (round_bounds _ 100 Hr1 Hr2).
Qed.

Lemma grid_step (m : Q) (w : world) (ev : event) :
  0 < m -> Reach m w -> event_ok ev -> on_grid m w -> int_writes w ->
  on_grid m (dispatch w ev) /\ int_writes (dispatch w ev).
Proof.
  intros Hm HR Hev Hg Hi. pose proof HR as [Hmax [l [Hl Hwl]] Hgeom Hoff Hcl Hids].
  assert (Hm0 : ~ m == 0) by (intros E; rewrite E in Hm; discriminate).
  destruct ev as [[x | | |] | [x | | |] |]; cbn in Hev; try contradiction;
    try (split; assumption).
  cbn [dispatch]. destruct (w_moves w) as [| L0 ls] eqn:Emv.
  - cbn [fold_left]. split; assumption.
  - destruct Hoff as [Hoff | [o Ho]]; [discriminate |].
    assert (Hd : w_drag w = mkDragData (Fin l) (Fin m) (Fin o)).
    { destruct (w_drag w); cbn in *; subst; reflexivity. }
    destruct (fold_drag_sync 100 m o x Hm0 ltac:(discriminate) (L0 :: ls) w l Hd Hwl Hcl)
      as [[H1 [H2 _]] | [H1 H2]];
    destruct (fold_drag 100 m o x Hm0 ltac:(discriminate) (L0 :: ls) w l Hd Hwl Hcl)
      as [_ [_ [_ [_ [_ [_ [ws [Hlog Hws]]]]]]]];
    (split; [| unfold int_writes; rewrite Hlog, store_writes_app; apply Forall_app;
               split; [exact Hi | eapply Forall_impl; [| exact Hws];
                                   intros u ->; eexists; reflexivity]]).
    + destruct Hg as [z [l0 [Hv [Hz [Hl0 Heq]]]]].
      exists z, l0. rewrite H1, H2. auto.
    + exists (Qfloor (clampQ (x + o) m / m * 100 + (1 # 2))),
             (m * written_value 100 m o x / 100).
      rewrite H1, H2. split; [reflexivity |].
      split; [apply written_value_int_bounds; exact Hm |].
      split; [reflexivity | apply Qeq_refl].
Qed.

Lemma grid_run (m : Q) :
  0 < m -> forall evs w, Forall event_ok evs -> Reach m w -> on_grid m w -> int_writes w ->
  on_grid m (run w evs) /\ int_writes (run w evs).
Proof.
  intros Hm evs. induction evs as [| ev evs IH]; intros w Hevs HR Hg Hi;
    [split; assumption |].
  inversion Hevs; subst. cbn [run fold_left].
  assert (Hm0 : ~ m == 0) by (intros E; rewrite E in Hm; discriminate).
  destruct (grid_step m w ev Hm HR ltac:(assumption) Hg Hi) as [Hg' Hi'].
  apply IH; try assumption. apply Reach_step; assumption.
Qed.

Lemma grid_mount (sw tw : Q) :
  on_grid (sw - tw) (mount (Fin sw) (Fin tw)) /\ int_writes (mount (Fin sw) (Fin tw)).
Proof.
  unfold mount, initialize. cbn [SliderProvider value maxValue js_sub js_neg js_add js_mul].
  rewrite div_fin by discriminate. split.
  - exists 50%Z, ((sw + - tw) * 50 / 100). cbn.
    split; [reflexivity |]. split; [lia |]. split; [reflexivity | apply Qeq_refl].
  - unfold int_writes. cbn. constructor.
Qed.

Lemma grid_reachable (sw tw : Q) (evs : list event) :
  0 < sw - tw -> Forall event_ok evs ->
  on_grid (sw - tw) (run (mount (Fin sw) (Fin tw)) evs) /\
  int_writes (run (mount (Fin sw) (Fin tw)) evs).
Proof.
  intros Hm Hevs. destruct (grid_mount sw tw) as [Hg Hi].
  apply grid_run; auto. apply Reach_mount.
Qed.

(** X1: with positive drag geometry the thumb offset stays within the track,
    [0 <= left <= maxTravel], after any sequence of browser events. *)
Theorem thumb_in_track (sw tw : Q) (evs : list event) :
  0 < sw - tw -> Forall event_ok evs ->
  exists l, w_left (run (mount (Fin sw) (Fin tw)) evs) = Fin l /\ 0 <= l /\ l <= sw - tw.
Proof.
  intros Hm Hevs. destruct (grid_reachable sw tw evs Hm Hevs)
    as [[z [l [_ [Hz [Hl Heq]]]]] _].
  exists l. split; [exact Hl |]. rewrite Heq.
  assert (Hz1 : 0 <= inject_Z z) by (change 0 with (inject_Z 0); rewrite <- Zle_Qle; lia).
  assert (Hz2 : inject_Z z <= 100) by (change 100 with (inject_Z 100); rewrite <- Zle_Qle; lia).
  destruct (ratio_bounds (inject_Z z) 100 (sw - tw) ltac:(reflexivity) Hz1 Hz2
              (Qlt_le_weak _ _ Hm)) as [H1 H2].
  setoid_replace ((sw - tw) * inject_Z z / 100) with (inject_Z z / 100 * (sw - tw))
    by field.
  split; assumption.
Qed.

Lemma thumb_in_track_witness :
  0 < 320 - 32 /\ Forall event_ok [MouseDown (Fin 200); MouseMove (Fin 0)] /\
  exists l, w_left (run (mount (Fin 320) (Fin 32)) [MouseDown (Fin 200); MouseMove (Fin 0)])
              = Fin l /\ 0 <= l /\ l <= 320 - 32.
Proof.
  split; [reflexivity |]. split; [repeat constructor |].
  apply thumb_in_track; [reflexivity | repeat constructor].
Defined.

(** X2: with positive drag geometry the displayed offset always matches the store:
    [value] is an integer [z] in [[0, 100]] and [left = (maxTravel * z) / 100]. *)
Theorem thumb_value_sync (sw tw : Q) (evs : list event) :
  0 < sw - tw -> Forall event_ok evs ->
  exists (z : Z) (l : Q),
    value (w_store (run (mount (Fin sw) (Fin tw)) evs)) = Fin (inject_Z z) /\
    (0 <= z <= 100)%Z /\
    w_left (run (mount (Fin sw) (Fin tw)) evs) = Fin l /\
    l == (sw - tw) * inject_Z z / 100.
Proof.
  intros Hm Hevs. exact (proj1 (grid_reachable sw tw evs Hm Hevs)).
Qed.

Lemma thumb_value_sync_witness :
  0 < 320 - 32 /\ Forall event_ok [MouseDown (Fin 200); MouseMove (Fin 156)] /\
  exists (z : Z) (l : Q),
    value (w_store (run (mount (Fin 320) (Fin 32))
                        [MouseDown (Fin 200); MouseMove (Fin 156)])) = Fin (inject_Z z) /\
    (0 <= z <= 100)%Z /\
    w_left (run (mount (Fin 320) (Fin 32)) [MouseDown (Fin 200); MouseMove (Fin 156)])
      = Fin l /\
    l == (320 - 32) * inject_Z z / 100.
Proof.
  split; [reflexivity |]. split; [repeat constructor |].
  apply thumb_value_sync; [reflexivity | repeat constructor].
Defined.

(** X3: whatever the drag geometry, every value the mapper writes to the store is
    an integer ([Math.round]). *)
Theorem store_writes_integer (sw tw : Q) (evs : list event) :
  0 < sw - tw -> Forall event_ok evs ->
  Forall (fun u => exists z : Z, u = Fin (inject_Z z))
         (store_writes (w_log (run (mount (Fin sw) (Fin tw)) evs))).
Proof.
  intros Hm Hevs. exact (proj2 (grid_reachable sw tw evs Hm Hevs)).
Qed.

Lemma store_writes_integer_witness :
  0 < 320 - 32 /\ Forall event_ok [MouseDown (Fin 200); MouseMove (Fin 157)] /\
  Forall (fun u => exists z : Z, u = Fin (inject_Z z))
         (store_writes (w_log (run (mount (Fin 320) (Fin 32))
                                   [MouseDown (Fin 200); MouseMove (Fin 157)]))).
Proof.
  split; [reflexivity |]. split; [repeat constructor |].
  apply store_writes_integer; [reflexivity | repeat constructor].
Defined.

(** X4: after a release, move events change nothing until the next press:
    every [drag] closure has been unregistered by its [drop]. *)
Theorem release_stops_drag (sw tw : number) (evs : list event) (x : number) :
  let w := dispatch (run (mount sw tw) evs) MouseUp in
  w_moves w = [] /\ dispatch w (MouseMove x) = w.
Proof.
  intros w.
  assert (E : w_moves w = []).
  { unfold w. cbn [dispatch w_moves]. apply drop_all. apply ids_run, ids_mount. }
  split; [exact E |]. cbn [dispatch]. rewrite E. reflexivity.
Qed.

(** ** Snapping error of the quantized drag *)

(** X5: when [drag] moves the thumb, the snapped offset it renders lies within
    half a value step, [max / (2 * maxValue)] pixels, of the clamped pointer
    position [Math.max(0, Math.min(pageX + offset, max))]. *)
Theorem drag_snap_error (M l m o x : Q) (dd' : drag_data) (v n' : Q) :
  0 < m -> 0 < M ->
  drag (Fin M) (mkDragData (Fin l) (Fin m) (Fin o)) (Fin x) =
    (dd', [SetValue (Fin v); SetLeft (Fin n')]) ->
  - (m / (2 * M)) <= n' - clampQ (x + o) m /\ n' - clampQ (x + o) m <= m / (2 * M).
Proof.
  intros Hm HM Hd.
  assert (Hm0 : ~ m == 0) by (intros E; rewrite E in Hm; discriminate).
  assert (HM0 : ~ M == 0) by (intros E; rewrite E in HM; discriminate).
  rewrite drag_fin in Hd by assumption. cbv zeta in Hd.
  destruct (Qeq_bool l (clampQ (x + o) m)); [discriminate |].
  set (c := clampQ (x + o) m) in *.
  set (q := c / m * M) in *.
  remember (Qfloor (q + (1 # 2))) as z eqn:Ez.
  injection Hd as _ _ Hn. subst n'.
  assert (Hz1 : inject_Z z <= q + (1 # 2)) by (rewrite Ez; apply Qfloor_le).
  assert (Hz2 : q + (1 # 2) < inject_Z (z + 1)) by (rewrite Ez; apply Qlt_floor).
  rewrite inject_Z_plus in Hz2. change (inject_Z 1) with 1 in Hz2.
  assert (Hk : 0 <= m / M).
  { apply Qle_shift_div_l; [exact HM | rewrite Qmult_0_l; apply Qlt_le_weak; exact Hm]. }
  setoid_replace (m * inject_Z z / M - c) with (m / M * (inject_Z z - q))
    by (unfold q; field; split; assumption).
  setoid_replace (m / (2 * M)) with (m / M * (1 # 2)) by (field; assumption).
  split.
  - setoid_replace (- (m / M * (1 # 2))) with (- (1 # 2) * (m / M)) by ring.
    rewrite (Qmult_comm (m / M)). apply Qmult_le_compat_r; [lra | exact Hk].
  - rewrite 2!(Qmult_comm (m / M)). apply Qmult_le_compat_r; [lra | exact Hk].
Qed.

Lemma drag_snap_error_witness :
  0 < 200 /\ 0 < 100 /\
  drag (Fin 100) (mkDragData (Fin 0) (Fin 200) (Fin 0)) (Fin (1013 # 10)) =
    (mkDragData (Fin (10200 # 100)) (Fin 200) (Fin 0),
     [SetValue (Fin 51); SetLeft (Fin (10200 # 100))]) /\
  - (200 / (2 * 100)) <= (10200 # 100) - clampQ ((1013 # 10) + 0) 200 /\
  (10200 # 100) - clampQ ((1013 # 10) + 0) 200 <= 200 / (2 * 100).
Proof.
  split; [reflexivity |]. split; [reflexivity |]. split; [vm_compute; reflexivity |].
  apply (drag_snap_error 100 0 200 0 (1013 # 10)
           (mkDragData (Fin (10200 # 100)) (Fin 200) (Fin 0)) 51 (10200 # 100));
    [reflexivity | reflexivity | vm_compute; reflexivity].
Defined.

(** ** The unquantized Slider *)

Lemma clampQ_compat (c1 c2 m : Q) : c1 == c2 -> clampQ c1 m == clampQ c2 m.
Proof.
  intros H. rewrite 2!clampQ_spec, H. reflexivity.
Qed.

Lemma drag_basic_fin (l m o x : Q) :
  drag_basic (mkDragData (Fin l) (Fin m) (Fin o)) (Fin x) =
  (let n := clampQ (x + o) m in
   if Qeq_bool l n then (mkDragData (Fin l) (Fin m) (Fin o), [])
   else (mkDragData (Fin n) (Fin m) (Fin o), [SetLeft (Fin n)])).
Proof.
  unfold drag_basic. cbn [dd_left dd_max dd_offset js_add].
  rewrite clamp_fin. unfold js_sneq. cbn [js_seq].
  destruct (Qeq_bool l (clampQ (x + o) m)); reflexivity.
Qed.

(** Every registered [drag] closure of the Slider reads and writes the same
    [dragData] ref: after the first one has moved the thumb the others do nothing. *)
Lemma fold_drag_basic (x m o : Q) (ids : list nat) :
  forall (w : bworld) (l : Q), b_drag w = mkDragData (Fin l) (Fin m) (Fin o) ->
  let w' := fold_left (fun w _ => run_drag_basic (Fin x) w) ids w in
  b_moves w' = b_moves w /\
  ((b_drag w' = b_drag w /\ b_left w' = b_left w /\ (ids = [] \/ l == clampQ (x + o) m)) \/
   (b_drag w' = mkDragData (Fin (clampQ (x + o) m)) (Fin m) (Fin o) /\
    b_left w' = Fin (clampQ (x + o) m))).
Proof.
  induction ids as [| i ids IH]; intros w l Hd; cbn [fold_left].
  - split; [reflexivity |]. left. auto.
  - destruct (Qeq_bool l (clampQ (x + o) m)) eqn:E.
    + set (w1 := {| b_left := b_left w; b_drag := mkDragData (Fin l) (Fin m) (Fin o);
                    b_moves := b_moves w; b_ups := b_ups w; b_fresh := b_fresh w |}).
      assert (Hw : run_drag_basic (Fin x) w = w1)
        by (unfold run_drag_basic; rewrite Hd, drag_basic_fin; cbv zeta; rewrite E;
            reflexivity).
      rewrite Hw.
      destruct (IH w1 l eq_refl) as [Hmv [[H1 [H2 _]] | H]].
      * split; [exact Hmv |]. left. rewrite H1, H2, Hd.
        split; [reflexivity |]. split; [reflexivity |].
        right. apply Qeq_bool_iff. exact E.
      * split; [exact Hmv | right; exact H].
    + set (w1 := {| b_left := Fin (clampQ (x + o) m);
                    b_drag := mkDragData (Fin (clampQ (x + o) m)) (Fin m) (Fin o);
                    b_moves := b_moves w; b_ups := b_ups w; b_fresh := b_fresh w |}).
      assert (Hw : run_drag_basic (Fin x) w = w1)
        by (unfold run_drag_basic; rewrite Hd, drag_basic_fin; cbv zeta; rewrite E;
            reflexivity).
      rewrite Hw.
      destruct (IH w1 (clampQ (x + o) m) eq_refl) as [Hmv [[H1 [H2 _]] | H]].
      * split; [exact Hmv |]. right. rewrite H1, H2. split; reflexivity.
      * split; [exact Hmv | right; exact H].
Qed.

Lemma basic_move (w : bworld) (l m o x : Q) :
  b_moves w <> [] -> b_drag w = mkDragData (Fin l) (Fin m) (Fin o) ->
  let w' := dispatch_basic w (BMouseMove (Fin x)) in
  b_moves w' = b_moves w /\
  exists n, n == clampQ (x + o) m /\ b_drag w' = mkDragData (Fin n) (Fin m) (Fin o) /\
    (b_left w' = Fin n \/ (b_left w' = b_left w /\ n = l)).
Proof.
  intros Hne Hd. cbn [dispatch_basic].
  destruct (fold_drag_basic x m o (b_moves w) w l Hd) as [Hmv [[H1 [H2 [H3 | H3]]] | [H1 H2]]].
  - contradiction.
  - split; [exact Hmv |]. exists l. rewrite H1, H2, Hd.
    split; [exact H3 |]. split; [reflexivity |]. right. split; reflexivity.
  - split; [exact Hmv |]. exists (clampQ (x + o) m). rewrite H1, H2.
    split; [reflexivity |]. split; [reflexivity |]. left. reflexivity.
Qed.

(** X6: in the unquantized Slider a move sets the shared [dragData.current.left] to
    [Math.max(0, Math.min(pageX + offset, max))], however many [drag] closures are
    registered, and [left] state to the same offset unless it already equalled the
    stored [left]; the listeners are untouched. *)
Theorem basic_move_clamps (w : bworld) (l m o x : Q) :
  b_moves w <> [] -> b_drag w = mkDragData (Fin l) (Fin m) (Fin o) ->
  let w' := dispatch_basic w (BMouseMove (Fin x)) in
  b_moves w' = b_moves w /\
  exists n, n == clampQ (x + o) m /\ b_drag w' = mkDragData (Fin n) (Fin m) (Fin o) /\
    (b_left w' = Fin n \/ (b_left w' = b_left w /\ n = l)).
Proof.
  exact (basic_move w l m o x).
Qed.

Lemma basic_move_clamps_witness :
  let w := {| b_left := Fin 5; b_drag := mkDragData (Fin 5) (Fin 288) (Fin (-100));
              b_moves := [0%nat; 1%nat]; b_ups := [0%nat; 1%nat]; b_fresh := 2 |} in
  b_moves w <> [] /\ b_drag w = mkDragData (Fin 5) (Fin 288) (Fin (-100)) /\
  (let w' := dispatch_basic w (BMouseMove (Fin 156)) in
   b_moves w' = b_moves w /\
   exists n, n == clampQ (156 + -100) 288 /\
     b_drag w' = mkDragData (Fin n) (Fin 288) (Fin (-100)) /\
     (b_left w' = Fin n \/ (b_left w' = b_left w /\ n = 5))).
Proof.
  intros w. split; [discriminate |]. split; [reflexivity |].
  apply (basic_move_clamps w 5 288 (-100) 156); [discriminate | reflexivity].
Defined.

(** X7: in the unquantized Slider the thumb follows the pointer pixel for pixel:
    with [0 <= max] the rendered offset lies in [[0, max]], and it is exactly
    [pageX + offset] whenever that lies in [[0, max]]. *)
Theorem basic_follows_pointer (w : bworld) (l m o x : Q) :
  0 <= m -> b_moves w <> [] -> b_drag w = mkDragData (Fin l) (Fin m) (Fin o) ->
  b_left w = Fin l ->
  exists n, b_left (dispatch_basic w (BMouseMove (Fin x))) = Fin n /\
    0 <= n /\ n <= m /\ (0 <= x + o -> x + o <= m -> n == x + o).
Proof.
  intros Hm Hne Hd Hl.
  destruct (basic_move w l m o x Hne Hd) as [_ [n [Hn [_ Hleft]]]].
  exists n. split; [destruct Hleft as [H | [H ->]]; [exact H | rewrite H; exact Hl] |].
  destruct (clampQ_bounds (x + o) m Hm) as [Hc1 Hc2].
  rewrite Hn. split; [exact Hc1 |]. split; [exact Hc2 |].
  intros H1 H2. rewrite clampQ_spec, Q.min_l by exact H2. apply Q.max_r. exact H1.
Qed.

Lemma basic_follows_pointer_witness :
  let w := {| b_left := Fin 5; b_drag := mkDragData (Fin 5) (Fin 288) (Fin (-100));
              b_moves := [0%nat]; b_ups := [0%nat]; b_fresh := 1 |} in
  0 <= 288 /\ b_moves w <> [] /\ b_drag w = mkDragData (Fin 5) (Fin 288) (Fin (-100)) /\
  b_left w = Fin 5 /\
  exists n, b_left (dispatch_basic w (BMouseMove (Fin 156))) = Fin n /\
    0 <= n /\ n <= 288 /\ (0 <= 156 + -100 -> 156 + -100 <= 288 -> n == 156 + -100).
Proof.
  intros w. split; [discriminate |]. split; [discriminate |].
  split; [reflexivity |]. split; [reflexivity |].
  apply (basic_follows_pointer w 5 288 (-100) 156);
    [discriminate | discriminate | reflexivity | reflexivity].
Defined.

(** X8: in the unquantized Slider a press followed by a move at the same [pageX]
    stores the thumb's offset within the track, [Math.max(0, Math.min(thumbLeft -
    sliderLeft, sliderWidth - thumbWidth))], measured by [getBoundingClientRect];
    [left] state takes that offset unless the measured [thumbLeft] equals it. *)
Theorem basic_press_in_place (w : bworld) (sl sw tl tw x0 : Q) :
  let ms := mkMeasures (Fin sl) (Fin sw) (Fin tl) (Fin tw) in
  let w' := dispatch_basic (dispatch_basic w (BMouseDown ms (Fin x0))) (BMouseMove (Fin x0)) in
  exists n, n == clampQ (tl - sl) (sw - tw) /\ dd_left (b_drag w') = Fin n /\
    (b_left w' = Fin n \/ (b_left w' = b_left w /\ n = tl)).
Proof.
  intros ms w'. unfold w'.
  set (w1 := dispatch_basic w (BMouseDown ms (Fin x0))).
  assert (Hne : b_moves w1 <> []) by (cbn; destruct (b_moves w); discriminate).
  destruct (basic_move w1 tl (sw + - tw) (tl + - x0 + - sl) x0 Hne eq_refl)
    as [_ [n [Hn [Hd Hleft]]]].
  exists n. split.
  - rewrite Hn. apply clampQ_compat. ring.
  - rewrite Hd. split; [reflexivity | exact Hleft].
Qed.

(** [drop()] closures of the Slider: removing the ids of [ups] one after the other. *)
Lemma bdrop_all (ups : list nat) :
  forall ms, (forall i, In i ms -> In i ups) ->
  fold_left (fun ls id => filter (fun j => negb (Nat.eqb j id)) ls) ups ms = [].
Proof.
  induction ups as [| u ups IH]; intros ms Hin; cbn [fold_left].
  - destruct ms as [| i ms]; [reflexivity |]. destruct (Hin i (or_introl eq_refl)).
  - apply IH. intros i Hi. apply filter_In in Hi as [Hi Hneq].
    destruct (Hin i Hi) as [-> | H]; [| exact H].
    rewrite Nat.eqb_refl in Hneq. discriminate.
Qed.

Lemma fold_drag_basic_ids (x : number) (ids : list nat) :
  forall w, let w' := fold_left (fun w _ => run_drag_basic x w) ids w in
  b_moves w' = b_moves w /\ b_ups w' = b_ups w.
Proof.
  induction ids as [| i ids IH]; intros w; cbn [fold_left]; [split; reflexivity |].
  destruct (IH (run_drag_basic x w)) as [H1 H2]. rewrite H1, H2.
  unfold run_drag_basic. destruct (drag_basic (b_drag w) x). split; reflexivity.
Qed.

Lemma basic_ids_step (w : bworld) (ev : bevent) :
  (forall i, In i (b_moves w) -> In i (b_ups w)) ->
  forall i, In i (b_moves (dispatch_basic w ev)) -> In i (b_ups (dispatch_basic w ev)).
Proof.
  intros Hin i. destruct ev as [ms x | x |]; cbn [dispatch_basic b_moves b_ups].
  - rewrite 2!in_app_iff. intros [H | H]; [left; exact (Hin i H) | right; exact H].
  - destruct (fold_drag_basic_ids x (b_moves w) w) as [H1 H2].
    rewrite H1, H2. exact (Hin i).
  - rewrite (bdrop_all (b_ups w) (b_moves w) Hin). intros [].
Qed.

Lemma basic_ids_run (evs : list bevent) :
  forall w, (forall i, In i (b_moves w) -> In i (b_ups w)) ->
  forall i, In i (b_moves (fold_left dispatch_basic evs w)) ->
            In i (b_ups (fold_left dispatch_basic evs w)).
Proof.
  induction evs as [| ev evs IH]; intros w Hin; cbn [fold_left]; [exact Hin |].
  apply IH. apply basic_ids_step. exact Hin.
Qed.

(** X9: in the unquantized Slider, after a release every later move does
    nothing until the next press: every [drag] closure registered since mount
    has been removed by its [drop]. *)
Theorem basic_release_stops_drag (evs : list bevent) (x : number) :
  let w := dispatch_basic (fold_left dispatch_basic evs bmount) BMouseUp in
  b_moves w = [] /\ dispatch_basic w (BMouseMove x) = w.
Proof.
  intros w.
  assert (E : b_moves w = []).
  { unfold w. cbn [dispatch_basic b_moves]. apply bdrop_all.
    apply basic_ids_run. intros i []. }
  split; [exact E |]. cbn [dispatch_basic]. rewrite E. reflexivity.
Qed.

(** ** Returning the pointer to where it was pressed *)

Lemma clampQ_in (c m : Q) : 0 <= c -> c <= m -> clampQ c m == c.
Proof.
  intros H1 H2. rewrite clampQ_spec, Q.min_l by exact H2. apply Q.max_r. exact H1.
Qed.

Lemma grid_scale (m : Q) (z1 z2 : Z) :
  0 < m -> m * inject_Z z1 / 100 == m * inject_Z z2 / 100 -> z1 = z2.
Proof.
  intros Hm H.
  assert (Hm0 : ~ m == 0) by (intros E; rewrite E in Hm; discriminate).
  apply inject_Z_injective.
  setoid_replace (inject_Z z1) with (m * inject_Z z1 / 100 * (100 / m)) by (field; exact Hm0).
  setoid_replace (inject_Z z2) with (m * inject_Z z2 / 100 * (100 / m)) by (field; exact Hm0).
  rewrite H. reflexivity.
Qed.

Lemma moves_keep_drag (m o : Q) (Hm0 : ~ m == 0) :
  forall xs w, Reach m w -> w_moves w <> [] -> dd_offset (w_drag w) = Fin o ->
  w_moves (run w (moves xs)) = w_moves w /\ dd_offset (w_drag (run w (moves xs))) = Fin o.
Proof.
  induction xs as [| y ys IH]; intros w HR Hne Ho; [split; [reflexivity | exact Ho] |].
  change (run w (moves (y :: ys))) with (run (dispatch w (MouseMove (Fin y))) (moves ys)).
  pose proof HR as [Hmax [l [Hl Hwl]] Hgeom Hoff Hcl Hids].
  assert (Hd : w_drag w = mkDragData (Fin l) (Fin m) (Fin o)).
  { destruct (w_drag w); cbn in *; subst; reflexivity. }
  destruct (fold_drag 100 m o y Hm0 ltac:(discriminate) (w_moves w) w l Hd Hwl Hcl)
    as [[l' [Hd' _]] [_ [Hmv' _]]].
  assert (HR1 : Reach m (dispatch w (MouseMove (Fin y))))
    by (apply Reach_step; [exact Hm0 | exact HR | exact I]).
  destruct (IH (dispatch w (MouseMove (Fin y))) HR1) as [H1 H2].
  - cbn [dispatch]. rewrite Hmv'. exact Hne.
  - cbn [dispatch]. rewrite Hd'. reflexivity.
  - split; [rewrite H1; cbn [dispatch]; exact Hmv' | exact H2].
Qed.

Lemma return_step (m x0 : Q) (xs : list Q) (w : world) :
  0 < m -> Reach m w -> on_grid m w -> int_writes w ->
  let w' := run w (MouseDown (Fin x0) :: moves xs ++ [MouseMove (Fin x0)]) in
  value (w_store w') = value (w_store w) /\
  exists l l', w_left w = Fin l /\ w_left w' = Fin l' /\ l' == l.
Proof.
  intros Hm HR Hg Hi w'.
  assert (Hm0 : ~ m == 0) by (intros E; rewrite E in Hm; discriminate).
  destruct Hg as [z [l [Hv [Hz [Hl Hlz]]]]].
  set (w1 := dispatch w (MouseDown (Fin x0))).
  set (w2 := run w1 (moves xs)).
  assert (Ew' : w' = dispatch w2 (MouseMove (Fin x0))).
  { unfold w', w2, w1, run. cbn [fold_left]. rewrite fold_left_app. reflexivity. }
  assert (Hevs : Forall event_ok (moves xs)).
  { apply Forall_forall. intros ev Hev. unfold moves in Hev.
    apply in_map_iff in Hev as [y [<- _]]. exact I. }
  assert (HR1 : Reach m w1) by (apply Reach_step; [exact Hm0 | exact HR | exact I]).
  destruct (grid_step m w (MouseDown (Fin x0)) Hm HR I
              (ex_intro _ z (ex_intro _ l (conj Hv (conj Hz (conj Hl Hlz))))) Hi)
    as [Hg1 Hi1].
  fold w1 in Hg1, Hi1.
  destruct (r_left _ _ HR) as [l0 [Hdl Hwl]]. rewrite Hl in Hwl. injection Hwl as <-.
  assert (Hne1 : w_moves w1 <> []).
  { unfold w1. cbn [dispatch startDrag w_moves]. destruct (w_moves w); discriminate. }
  assert (Ho1 : dd_offset (w_drag w1) = Fin (l + - x0)).
  { unfold w1. cbn [dispatch startDrag w_drag dd_offset]. rewrite Hdl. reflexivity. }
  destruct (moves_keep_drag m (l + - x0) Hm0 xs w1 HR1 Hne1 Ho1) as [Hmv2 Ho2].
  fold w2 in Hmv2, Ho2.
  assert (HR2 : Reach m w2) by (apply Reach_run; assumption).
  destruct (grid_run m Hm (moves xs) w1 Hevs HR1 Hg1 Hi1) as [Hg2 _]. fold w2 in Hg2.
  pose proof HR2 as [Hmax2 [l2 [Hdl2 Hwl2]] Hgeom2 _ Hcl2 _].
  assert (Hd2 : w_drag w2 = mkDragData (Fin l2) (Fin m) (Fin (l + - x0))).
  { destruct (w_drag w2); cbn in *; subst; reflexivity. }
  assert (Hl0m : 0 <= l /\ l <= m).
  { rewrite Hlz.
    assert (Hz1 : 0 <= inject_Z z) by (change 0 with (inject_Z 0); rewrite <- Zle_Qle; lia).
    assert (Hz2 : inject_Z z <= 100)
      by (change 100 with (inject_Z 100); rewrite <- Zle_Qle; lia).
    destruct (ratio_bounds (inject_Z z) 100 m ltac:(reflexivity) Hz1 Hz2 (Qlt_le_weak _ _ Hm))
      as [H1 H2].
    setoid_replace (m * inject_Z z / 100) with (inject_Z z / 100 * m) by field.
    split; assumption. }
  assert (Hc : clampQ (x0 + (l + - x0)) m == l).
  { rewrite (clampQ_compat (x0 + (l + - x0)) l m) by ring.
    apply clampQ_in; apply Hl0m. }
  rewrite Ew'. cbn [dispatch].
  destruct (fold_drag_sync 100 m (l + - x0) x0 Hm0 ltac:(discriminate) (w_moves w2) w2 l2
              Hd2 Hwl2 Hcl2) as [[H1 [H2 [H3 | H3]]] | [H1 H2]].
  - rewrite Hmv2 in H3. contradiction.
  - rewrite H1, H2.
    destruct Hg2 as [z2 [l2' [Hv2 [_ [Hl2' Hlz2]]]]].
    rewrite Hwl2 in Hl2'. injection Hl2' as <-.
    assert (Ez : z2 = z).
    { apply (grid_scale m); [exact Hm |]. rewrite <- Hlz2, <- Hlz, H3. exact Hc. }
    subst z2. split; [rewrite Hv2, Hv; reflexivity |].
    exists l, l2. split; [exact Hl |]. split; [exact Hwl2 |]. rewrite H3. exact Hc.
  - rewrite H1, H2.
    assert (Ez : Qfloor (clampQ (x0 + (l + - x0)) m / m * 100 + (1 # 2)) = z).
    { rewrite <- (round_int z). apply Qfloor_comp.
      rewrite Hc, Hlz. field. exact Hm0. }
    unfold written_value. rewrite Ez. split; [cbn [value setValue]; rewrite Hv; reflexivity |].
    exists l, (m * inject_Z z / 100). split; [exact Hl |]. split; [reflexivity |].
    rewrite Hlz. reflexivity.
Qed.

(** X10: with positive drag geometry, pressing the thumb, dragging it anywhere and
    bringing the pointer back to where it was pressed restores the store's value
    exactly and the thumb offset up to equality of rationals. *)
Theorem return_restores (sw tw x0 : Q) (evs : list event) (xs : list Q) :
  0 < sw - tw -> Forall event_ok evs ->
  let w := run (mount (Fin sw) (Fin tw)) evs in
  let w' := run w (MouseDown (Fin x0) :: moves xs ++ [MouseMove (Fin x0)]) in
  value (w_store w') = value (w_store w) /\
  exists l l', w_left w = Fin l /\ w_left w' = Fin l' /\ l' == l.
Proof.
  intros Hm Hevs w.
  assert (Hm0 : ~ sw - tw == 0) by (intros E; rewrite E in Hm; discriminate).
  destruct (grid_reachable sw tw evs Hm Hevs) as [Hg Hi].
  apply (return_step (sw - tw)); [exact Hm | | exact Hg | exact Hi].
  apply Reach_run; [exact Hm0 | exact Hevs | apply Reach_mount].
Qed.

Lemma return_restores_witness :
  0 < 320 - 32 /\ Forall event_ok [MouseDown (Fin 100); MouseMove (Fin 157); MouseUp] /\
  (let w := run (mount (Fin 320) (Fin 32)) [MouseDown (Fin 100); MouseMove (Fin 157); MouseUp] in
   let w' := run w (MouseDown (Fin 200) :: moves [250; 13; 199] ++ [MouseMove (Fin 200)]) in
   value (w_store w') = value (w_store w) /\
   exists l l', w_left w = Fin l /\ w_left w' = Fin l' /\ l' == l).
Proof.
  split; [reflexivity |]. split; [repeat constructor |].
  apply return_restores; [reflexivity | repeat constructor].
Defined.
